(** * Keyword classifiers and grouping views of the escrow dashboard

    A shallow embedding of the text classifiers of the escrow front-ends
    and of the two grouping views built on them:

    - [fallbackCategorization]  (escro-frontend-shashank/src/utils/ai.ts),
    - [getErrorCategory], [categorizeTransactions] and
      [categorizeByMessages]    (the dashboard page),

    and of the code around them: [categorizeTransaction] (utils/ai.ts),
    what the dashboard makes of fetched transactions,
    [isBlockfrostAvailable] and [getAvailableNetwork]
    (utils/blockchain.ts), the hexadecimal codec [stringToHex] and
    [hexToString] (utils/escrow.ts), and, of the send page,
    [truncateForMetadata] and the derivation of the script address:
    [convertBits], the bech32 checksum and [bech32Encode],
    [getScriptAddress].

    Strings.  A JavaScript string is a sequence of code units; here a
    [string] is a sequence of 8-bit characters read as the code units
    U+0000 .. U+00FF (Latin-1).  On that range [String.prototype.toLowerCase]
    maps one code unit to one code unit and [String.prototype.trim] strips
    the seven white-space code units listed in [isWhiteSpace]; both are
    written out below.  Every keyword of every table is plain ASCII. *)

From Stdlib Require Import Ascii String.
From stdpp Require Import base option list strings.

(* ===================================================================== *)
(** ** String primitives                                                  *)
(* ===================================================================== *)

Module Js.

(** [toLowerCase] on one Latin-1 code unit: A..Z and the accented capitals
    U+00C0..U+00DE (all but the multiplication sign U+00D7) move up by 32;
    every other code unit is its own lower case. *)
Definition lowerChar (c : ascii) : ascii :=
  let n := nat_of_ascii c in
  if (Nat.leb 65 n && Nat.leb n 90)
     || (Nat.leb 192 n && Nat.leb n 222 && negb (Nat.eqb n 215))
  then ascii_of_nat (n + 32)
  else c.

(** [s.toLowerCase()] *)
Fixpoint toLowerCase (s : string) : string :=
  match s with
  | EmptyString => EmptyString
  | String c s' => String (lowerChar c) (toLowerCase s')
  end.

(** [s.includes(searchString)]: [searchString] occurs in [s] at some
    position; the empty search string occurs everywhere. *)
Fixpoint includes (s searchString : string) : bool :=
  String.prefix searchString s
  || match s with
     | EmptyString => false
     | String _ s' => includes s' searchString
     end.

(** White space and line terminators of ECMAScript below U+0100:
    TAB, LF, VT, FF, CR, SPACE and NO-BREAK SPACE. *)
Definition isWhiteSpace (c : ascii) : bool :=
  let n := nat_of_ascii c in
  (Nat.leb 9 n && Nat.leb n 13) || Nat.eqb n 32 || Nat.eqb n 160.

Fixpoint trimStart (s : string) : string :=
  match s with
  | EmptyString => EmptyString
  | String c s' => if isWhiteSpace c then trimStart s' else s
  end.

Fixpoint trimEnd (s : string) : string :=
  match s with
  | EmptyString => EmptyString
  | String c s' =>
      match trimEnd s' with
      | EmptyString => if isWhiteSpace c then EmptyString else String c EmptyString
      | t => String c t
      end
  end.

(** [s.trim()] *)
Definition trim (s : string) : string := trimEnd (trimStart s).

(** [x || ''] on an optional string: [undefined] and [''] are both falsy. *)
Definition orEmpty (x : option string) : string :=
  match x with
  | Some s => s
  | None => ""
  end.

(** Truthiness of an optional string. *)
Definition truthy (x : option string) : bool :=
  match x with
  | Some s => negb (String.eqb s "")
  | None => false
  end.

End Js.

(* ===================================================================== *)
(** ** utils/ai.ts: the keyword fallback                                  *)
(* ===================================================================== *)

(** [TRANSACTION_CATEGORIES] of utils/escrow.ts. *)
Definition TRANSACTION_CATEGORIES : list string :=
  ["Food"; "Shopping"; "Bills"; "Entertainment"; "Transport"; "Services";
   "Investment"; "Gift"; "Other"].

(** The object literal [categoryKeywords]; its keys are not integer-like, so
    [Object.entries] lists them in the order they are written. *)
Definition categoryKeywords : list (string * list string) :=
  [ ("Food",
      ["restaurant"; "food"; "meal"; "lunch"; "dinner"; "breakfast"; "coffee";
       "pizza"; "burger"; "grocery"; "supermarket"; "bakery"; "cafe"; "eat";
       "snack"; "drink"; "beverage"; "kitchen"; "cooking"; "recipe"]);
    ("Shopping",
      ["shopping"; "store"; "mall"; "buy"; "purchase"; "retail"; "clothes";
       "clothing"; "fashion"; "shoes"; "accessories"; "electronics"; "gadget";
       "amazon"; "ebay"; "shop"; "merchandise"; "item"; "product"]);
    ("Bills",
      ["bill"; "utility"; "electricity"; "gas"; "water"; "internet"; "phone";
       "rent"; "mortgage"; "insurance"; "subscription"; "netflix"; "spotify";
       "payment"; "monthly"; "annual"; "service charge"; "fee"]);
    ("Entertainment",
      ["movie"; "cinema"; "theater"; "concert"; "music"; "game"; "gaming";
       "entertainment"; "fun"; "party"; "club"; "bar"; "vacation"; "travel";
       "holiday"; "ticket"; "event"; "show"; "sports"; "hobby"]);
    ("Transport",
      ["transport"; "taxi"; "uber"; "lyft"; "bus"; "train"; "subway"; "flight";
       "airline"; "fuel"; "gas station"; "parking"; "car"; "vehicle";
       "motorcycle"; "bike"; "commute"; "travel"; "journey"]);
    ("Services",
      ["service"; "repair"; "maintenance"; "cleaning"; "haircut"; "salon";
       "spa"; "doctor"; "medical"; "hospital"; "dentist"; "lawyer"; "consultant";
       "professional"; "freelance"; "contractor"; "plumber"; "electrician"]);
    ("Investment",
      ["investment"; "stock"; "crypto"; "bitcoin"; "ethereum"; "savings";
       "portfolio"; "trading"; "broker"; "dividend"; "interest"; "fund";
       "etf"; "bond"; "financial"; "bank"; "deposit"]);
    ("Gift",
      ["gift"; "present"; "birthday"; "anniversary"; "christmas"; "holiday";
       "donation"; "charity"; "tip"; "bonus"; "reward"; "prize"; "wedding";
       "graduation"; "celebration"; "surprise"]) ].

(** The inner [for (const keyword of keywords)] loop: [true] when its
    [return category] fires. *)
Fixpoint keywordLoop (lowerMessage : string) (keywords : list string) : bool :=
  match keywords with
  | [] => false
  | keyword :: rest =>
      if Js.includes lowerMessage keyword then true
      else keywordLoop lowerMessage rest
  end.

(** The outer [for (const [category, keywords] of Object.entries(...))]
    loop: the value returned from inside it, if any. *)
Fixpoint entryLoop (lowerMessage : string)
    (entries : list (string * list string)) : option string :=
  match entries with
  | [] => None
  | (category, keywords) :: rest =>
      if keywordLoop lowerMessage keywords then Some category
      else entryLoop lowerMessage rest
  end.

Definition fallbackCategorization (message : string) : string :=
  let lowerMessage := Js.toLowerCase message in
  match entryLoop lowerMessage categoryKeywords with
  | Some category => category
  | None => "Other"
  end.

(* ===================================================================== *)
(** ** The dashboard page                                                 *)
(* ===================================================================== *)

Inductive Status : Set := success | failed | pending.

Definition Status_eqb (a b : Status) : bool :=
  match a, b with
  | success, success | failed, failed | pending, pending => true
  | _, _ => false
  end.

(** [interface Transaction]; a field marked [?] is optional.  The numeric
    fields are carried along and never inspected. *)
Record Transaction : Set := mkTransaction {
  id : string;
  timestamp : nat;
  amount : string;
  recipient : option string;
  sender : option string;
  message : option string;
  status : Status;
  errorMessage : option string;
  txHash : option string;
  hash : option string;
  network : string;
  fees : option string;
  blockHeight : option nat;
  confirmations : option nat
}.

(** [interface TransactionCategory] and [interface MessageCategory]; each
    sits in a module of its own since both have a [transactions] and a
    [color] field.  The emoji [icon] field, a display literal, is left out. *)
Module TransactionCategory.
Record t : Set := mk {
  title : string;
  transactions : list Transaction;
  color : string
}.
End TransactionCategory.

Module MessageCategory.
Record t : Set := mk {
  category : string;
  keywords : list string;
  transactions : list Transaction;
  color : string
}.
End MessageCategory.

(** *** getErrorCategory *)

Definition getErrorCategory (errorMessage : string) : string :=
  let message := Js.toLowerCase errorMessage in
  if Js.includes message "insufficient" || Js.includes message "depleted"
  then "Insufficient Funds"
  else if Js.includes message "declined" || Js.includes message "cancelled"
  then "User Cancelled"
  else if Js.includes message "network" || Js.includes message "connection"
  then "Network Issues"
  else if Js.includes message "address" || Js.includes message "invalid"
  then "Invalid Address"
  else if Js.includes message "timeout"
  then "Timeout"
  else "Other Errors".


(** *** Plain objects used as dictionaries

    [{} as Record<string, V>]: own properties in insertion order, which is
    the order [Object.entries] lists them in (no key used here is
    integer-like, and none is a property of [Object.prototype]). *)
Module JsObject.
Section JsObject.
Context {V : Type}.

Definition t : Type := list (string * V).

(** [obj[key]]: [None] is [undefined]. *)
Fixpoint get (obj : t) (key : string) : option V :=
  match obj with
  | [] => None
  | (k, v) :: rest => if String.eqb k key then Some v else get rest key
  end.

(** [obj[key] = v]: an existing property keeps its place, a new one goes
    last. *)
Fixpoint set (obj : t) (key : string) (v : V) : t :=
  match obj with
  | [] => [(key, v)]
  | (k, w) :: rest =>
      if String.eqb k key then (k, v) :: rest else (k, w) :: set rest key v
  end.

(** [Object.entries(obj)] *)
Definition entries (obj : t) : list (string * V) := obj.

End JsObject.
End JsObject.

(** [array.reduce] and [array.forEach] with a callback that can throw:
    [None] is an uncaught [TypeError]. *)
Fixpoint reduceM {A B : Type} (f : B -> A -> option B) (l : list A) (acc : B)
    : option B :=
  match l with
  | [] => Some acc
  | x :: rest => acc' ← f acc x; reduceM f rest acc'
  end.

(** *** categorizeTransactions *)

(** The callback of [failed.reduce]. *)
Definition groupByError (acc : JsObject.t) (tx : Transaction)
    : option (@JsObject.t (list Transaction)) :=
  let errorType := getErrorCategory (Js.orEmpty (errorMessage tx)) in
  let acc :=
    match JsObject.get acc errorType with
    | None => JsObject.set acc errorType []
    | Some _ => acc
    end in
  (* acc[errorType].push(tx): pushing onto [undefined] would throw *)
  bucket ← JsObject.get acc errorType;
  Some (JsObject.set acc errorType (bucket ++ [tx])).

Definition failedByError (transactions : list Transaction)
    : option (@JsObject.t (list Transaction)) :=
  let failed := List.filter (fun tx => Status_eqb (status tx) failed) transactions in
  reduceM groupByError failed [].

Definition categorizeTransactions (transactions : list Transaction)
    : option (list TransactionCategory.t) :=
  let successful := List.filter (fun tx => Status_eqb (status tx) success) transactions in
  let pending := List.filter (fun tx => Status_eqb (status tx) pending) transactions in
  failedByError ← failedByError transactions;
  let categories :=
    [ TransactionCategory.mk "Successful Transactions" successful
        "bg-green-100 border-green-300 text-green-800";
      TransactionCategory.mk "Pending Transactions" pending
        "bg-yellow-100 border-yellow-300 text-yellow-800" ] in
  Some (categories ++
        List.map (fun '(errorType, txs) =>
                    TransactionCategory.mk ("Failed: " +:+ errorType) txs
                      "bg-red-100 border-red-300 text-red-800")
                 (JsObject.entries failedByError)).

(** *** categorizeByMessages *)

Definition messageCategories : list MessageCategory.t :=
  [ MessageCategory.mk "Payments & Purchases"
      ["payment"; "purchase"; "buy"; "pay"; "invoice"; "bill"; "shopping"; "store"]
      [] "bg-blue-100 border-blue-300 text-blue-800";
    MessageCategory.mk "Gifts & Tips"
      ["gift"; "tip"; "donation"; "birthday"; "christmas"; "present"; "thanks"; "reward"]
      [] "bg-pink-100 border-pink-300 text-pink-800";
    MessageCategory.mk "Business & Work"
      ["salary"; "work"; "business"; "contract"; "service"; "freelance"; "client"; "project"]
      [] "bg-indigo-100 border-indigo-300 text-indigo-800";
    MessageCategory.mk "Family & Friends"
      ["family"; "friend"; "mom"; "dad"; "brother"; "sister"; "loan"; "borrow"; "help"]
      [] "bg-yellow-100 border-yellow-300 text-yellow-800";
    MessageCategory.mk "Food & Dining"
      ["food"; "dinner"; "lunch"; "restaurant"; "coffee"; "meal"; "pizza"; "delivery"]
      [] "bg-orange-100 border-orange-300 text-orange-800";
    MessageCategory.mk "Testing & Development"
      ["test"; "testing"; "demo"; "example"; "try"; "sample"; "debug"; "dev"]
      [] "bg-purple-100 border-purple-300 text-purple-800";
    MessageCategory.mk "Other Messages"
      []
      [] "bg-gray-100 border-gray-300 text-gray-800" ].

(** [category.keywords.some(keyword => message.includes(keyword.toLowerCase()))] *)
Definition hasKeyword (message : string) (category : MessageCategory.t) : bool :=
  existsb (fun keyword => Js.includes message (Js.toLowerCase keyword))
          (MessageCategory.keywords category).

(** The [for (let i = 0; i < messageCategories.length - 1; i++)] loop run
    over the categories it visits, [i] being the index of the first of
    them: the index at which it breaks, if it does. *)
Fixpoint categoryLoop (message : string) (visited : list MessageCategory.t)
    (i : nat) : option nat :=
  match visited with
  | [] => None
  | category :: rest =>
      if hasKeyword message category then Some i
      else categoryLoop message rest (S i)
  end.

(** The index of the category whose [transactions] receive the item: where
    the loop broke, or the last one when [categorized] stayed [false]. *)
Definition targetIndex (cats : list MessageCategory.t) (message : string) : nat :=
  match categoryLoop message (take (length cats - 1) cats) 0 with
  | Some i => i
  | None => length cats - 1
  end.

(** [category.transactions.push(tx)] *)
Definition pushTransaction (tx : Transaction) (category : MessageCategory.t)
    : MessageCategory.t :=
  MessageCategory.mk (MessageCategory.category category)
    (MessageCategory.keywords category)
    (MessageCategory.transactions category ++ [tx])
    (MessageCategory.color category).

(** The callback of [txsWithMessages.forEach], on the array the categories
    live in.  [tx.message!.toLowerCase()] throws on a missing message, and so
    does reaching through an index the array does not have. *)
Definition categorizeOne (cats : list MessageCategory.t) (tx : Transaction)
    : option (list MessageCategory.t) :=
  m ← message tx;
  let message := Js.toLowerCase m in
  let i := targetIndex cats message in
  _ ← cats !! i;
  Some (alter (pushTransaction tx) i cats).

(** [tx => tx.message && tx.message.trim() !== ''] *)
Definition hasMessage (tx : Transaction) : bool :=
  Js.truthy (message tx)
  && negb (String.eqb (Js.trim (Js.orEmpty (message tx))) "").

Definition categorizeByMessages (transactions : list Transaction)
    : option (list MessageCategory.t) :=
  let txsWithMessages := List.filter hasMessage transactions in
  cats ← reduceM categorizeOne txsWithMessages messageCategories;
  Some (List.filter
          (fun category => Nat.ltb 0 (length (MessageCategory.transactions category)))
          cats).

(** *** fetchBlockchainTransactions: what the dashboard shows *)

(** [interface ParsedTransaction] of utils/blockchain.ts, the shape both
    [fetchAddressTransactions] and [getMockTransactions] return. *)
Module ParsedTransaction.
Record t : Set := mk {
  id : string;
  hash : string;
  timestamp : nat;
  amount : string;
  recipient : option string;
  sender : option string;
  message : option string;
  status : Status;
  fees : string;
  network : string;
  blockHeight : nat;
  confirmations : option nat
}.
End ParsedTransaction.

(** The callback of [fetchedTxs.map] and of [mockTxs.map], the same in both
    branches: the dashboard's [id] is the hash, a missing or empty
    recipient reads 'Unknown', and no [errorMessage] is ever set. *)
Definition toDashboardTransaction (tx : ParsedTransaction.t) : Transaction :=
  mkTransaction
    (ParsedTransaction.hash tx)
    (ParsedTransaction.timestamp tx)
    (ParsedTransaction.amount tx)
    (Some (if Js.truthy (ParsedTransaction.recipient tx)
           then Js.orEmpty (ParsedTransaction.recipient tx)
           else "Unknown"))
    (ParsedTransaction.sender tx)
    (ParsedTransaction.message tx)
    (ParsedTransaction.status tx)
    None
    (Some (ParsedTransaction.hash tx))
    (Some (ParsedTransaction.hash tx))
    "preprod"
    (Some (ParsedTransaction.fees tx))
    (Some (ParsedTransaction.blockHeight tx))
    (ParsedTransaction.confirmations tx).

(** The array handed to [setTransactions]. *)
Definition blockchainTxs (fetched : list ParsedTransaction.t) : list Transaction :=
  List.map toDashboardTransaction fetched.

(** *** utils/blockchain.ts: which network can be queried

    The two environment variables are read where the functions run; here
    they are arguments, [None] for a variable that is not set. *)

Inductive Network : Set := preprod | mainnet.

(** [!!(preprodKey && preprodKey !== 'preprod_mock' &&
        preprodKey.startsWith('preprod'))] *)
Definition isBlockfrostAvailable (preprodKey : option string) : bool :=
  Js.truthy preprodKey
  && negb (String.eqb (Js.orEmpty preprodKey) "preprod_mock")
  && String.prefix "preprod" (Js.orEmpty preprodKey).

Definition getAvailableNetwork (preprodKey mainnetKey : option string)
    : option Network :=
  if Js.truthy preprodKey && String.prefix "preprod" (Js.orEmpty preprodKey)
  then Some preprod
  else if Js.truthy mainnetKey && String.prefix "mainnet" (Js.orEmpty mainnetKey)
  then Some mainnet
  else None.

(** [BLOCKFROST_CONFIG.preprod.apiKey]:
    [process.env.NEXT_PUBLIC_BLOCKFROST_API_KEY || 'preprod_mock'] *)
Definition preprodApiKey (preprodKey : option string) : string :=
  if Js.truthy preprodKey then Js.orEmpty preprodKey else "preprod_mock".

(** *** utils/ai.ts: categorizeTransaction

    What the request to the language model can come to, seen from the code
    after [fetch]: something throws (the request fails, [response.ok] is
    false, the body is not JSON, or the reply lacks [parts[0].text] or it
    is no string), the reply has no first candidate with a [content], or
    the reply carries a text. *)
Inductive GeminiReply : Set :=
  | ReplyThrows
  | ReplyNoContent
  | ReplyText (text : string).

(** [categorizeTransaction], the key and the reply being arguments.  With
    no usable key the request is not made; whatever is thrown is caught. *)
Definition categorizeTransaction (GEMINI_API_KEY : option string)
    (reply : GeminiReply) (message : string) : string :=
  if negb (Js.truthy GEMINI_API_KEY)
     || String.eqb (Js.orEmpty GEMINI_API_KEY) "undefined"
  then fallbackCategorization message
  else
    match reply with
    | ReplyThrows => fallbackCategorization message
    | ReplyNoContent => fallbackCategorization message
    | ReplyText text =>
        let category := Js.trim text in
        if existsb (String.eqb category) TRANSACTION_CATEGORIES
        then category
        else fallbackCategorization message
    end.

(** *** utils/escrow.ts: stringToHex and hexToString

    The codec treats code units above U+00FF differently from those below,
    so here a string is the sequence of its UTF-16 code units, numbers
    below 65536, whatever they are. *)
Module Hex.

(** The code units of a Latin-1 string. *)
Definition units (s : string) : list N :=
  List.map N_of_ascii (list_ascii_of_string s).

Definition isHighSurrogate (u : N) : bool := (55296 <=? u)%N && (u <=? 56319)%N.
Definition isLowSurrogate (u : N) : bool := (56320 <=? u)%N && (u <=? 57343)%N.

(** [Array.from(str)]: the string cut into code points, a surrogate pair
    being one element; of each element its first code unit and, for a
    pair, the second. *)
Fixpoint arrayFrom (str : list N) : list (N * option N) :=
  match str with
  | [] => []
  | u :: rest =>
      match rest with
      | v :: rest' =>
          if isHighSurrogate u && isLowSurrogate v
          then (u, Some v) :: arrayFrom rest'
          else (u, None) :: arrayFrom rest
      | [] => [(u, None)]
      end
  end.

(** The digit [d] of a number written in base 16: 0-9, a-f. *)
Definition hexDigit (d : N) : N :=
  if (d <? 10)%N then (48 + d)%N else (87 + d)%N.

Fixpoint hexDigitsOf (fuel : nat) (n : N) : list N :=
  match fuel with
  | O => []
  | S fuel' =>
      if (n <? 16)%N then [hexDigit n]
      else hexDigitsOf fuel' (n / 16)%N ++ [hexDigit (n mod 16)%N]
  end.

(** [n.toString(16)] for a non-negative integer: one round for each binary
    digit of [n] is more than its hexadecimal digits need. *)
Definition toString16 (n : N) : list N :=
  hexDigitsOf (S (N.to_nat (N.log2 n))) n.

(** [s.padStart(2, '0')] *)
Definition padStart2 (s : list N) : list N :=
  match s with
  | [] => [48; 48]%N
  | [d] => [48; d]%N
  | _ => s
  end.

Definition stringToHex (str : list N) : list N :=
  concat (List.map (fun c : N * option N => padStart2 (toString16 c.1))
                   (arrayFrom str)).

(** White space and line terminators, which [parseInt] skips. *)
Definition isStrWhiteSpace (u : N) : bool :=
  ((9 <=? u) && (u <=? 13) || (u =? 32) || (u =? 160) || (u =? 5760)
   || (8192 <=? u) && (u <=? 8202) || (u =? 8232) || (u =? 8233)
   || (u =? 8239) || (u =? 8287) || (u =? 12288) || (u =? 65279))%N.

Fixpoint skipWhiteSpace (s : list N) : list N :=
  match s with
  | [] => []
  | u :: rest => if isStrWhiteSpace u then skipWhiteSpace rest else s
  end.

(** The value of a hexadecimal digit, of either case. *)
Definition hexValue (u : N) : option N :=
  if (48 <=? u)%N && (u <=? 57)%N then Some (u - 48)%N
  else if (97 <=? u)%N && (u <=? 102)%N then Some (u - 87)%N
  else if (65 <=? u)%N && (u <=? 70)%N then Some (u - 55)%N
  else None.

(** The number the longest run of digits at the front of [s] denotes;
    [acc] is [None] until a digit has been read. *)
Fixpoint digitsValue (acc : option N) (s : list N) : option N :=
  match s with
  | [] => acc
  | u :: rest =>
      match hexValue u with
      | Some d => digitsValue (Some (16 * default 0%N acc + d)%N) rest
      | None => acc
      end
  end.

(** [parseInt(s, 16)]: white space is skipped, a sign and a [0x] or [0X]
    are taken off, the digits that follow are read; [None] is [NaN].  (The
    codec hands it two code units at most, far from where JavaScript
    numbers stop being exact.) *)
Definition parseInt16 (s : list N) : option Z :=
  let s := skipWhiteSpace s in
  let '(sign, s) :=
    match s with
    | 45%N :: rest => ((-1)%Z, rest)
    | 43%N :: rest => (1%Z, rest)
    | _ => (1%Z, s)
    end in
  let s :=
    match s with
    | 48%N :: 120%N :: rest => rest
    | 48%N :: 88%N :: rest => rest
    | _ => s
    end in
  match digitsValue None s with
  | Some v => Some (sign * Z.of_N v)%Z
  | None => None
  end.

(** [String.fromCharCode(x)]: [NaN] is code unit 0, any other number is
    taken modulo 65536. *)
Definition fromCharCode (x : option Z) : N :=
  match x with
  | Some z => Z.to_N (z mod 65536)
  | None => 0%N
  end.

(** The loop of [hexToString]: [hex.substr(i, 2)] for [i] = 0, 2, 4, ... *)
Fixpoint hexToString (hex : list N) : list N :=
  match hex with
  | [] => []
  | [a] => [fromCharCode (parseInt16 [a])]
  | a :: b :: rest => fromCharCode (parseInt16 [a; b]) :: hexToString rest
  end.

(** The digits [stringToHex] writes. *)
Definition isLowerHexDigit (u : N) : bool :=
  ((48 <=? u) && (u <=? 57) || (97 <=? u) && (u <=? 102))%N.

End Hex.

(** *** The send form: truncateForMetadata

    Strings are sequences of code units as in [Hex]; the limit is taken to
    be an integer, as it is wherever the function is called (25, and 50
    when it is left out). *)

(** [str.slice(0, end)]: a negative [end] counts from the end of the
    string. *)
Definition slice0 (str : list N) (end_ : Z) : list N :=
  let len := Z.of_nat (length str) in
  let final := if (end_ <? 0)%Z then Z.max (len + end_) 0 else Z.min end_ len in
  take (Z.to_nat final) str.

Definition truncateForMetadata (str : list N) (maxLength : Z) : list N :=
  if (Z.of_nat (length str) <=? maxLength)%Z then str
  else slice0 str (maxLength - 3) ++ Hex.units "...".

(** *** The send form: bech32 addresses

    JavaScript's bit operators work on 32-bit integers: each operand is
    taken modulo 2^32 into the signed range first, and a shift count is
    taken modulo 32.  Numbers are integers here, the only kind these
    functions are given, and [None] where [parseInt] can hand in [NaN]. *)
Module Int32.

(** [ToInt32] of an integer. *)
Definition wrap (z : Z) : Z := ((z + 2147483648) mod 4294967296 - 2147483648)%Z.

(** [a << n], [a >> n], [a & b], [a | b], [a ^ b] *)
Definition shl (a n : Z) : Z := wrap (Z.shiftl (wrap a) (n mod 32)).
Definition sar (a n : Z) : Z := Z.shiftr (wrap a) (n mod 32).
Definition and (a b : Z) : Z := Z.land (wrap a) (wrap b).
Definition or (a b : Z) : Z := Z.lor (wrap a) (wrap b).
Definition xor (a b : Z) : Z := Z.lxor (wrap a) (wrap b).

End Int32.

Module Bech32.

Definition BECH32_CHARSET : string := "qpzry9x8gf2tvdw0s3jn54khce6mua7l".

Definition GEN : list Z :=
  [996825010; 642813549; 513874426; 1027748829; 705979059]%Z.

(** One round of the inner loop of [bech32Polymod]:
    [chk ^= ((top >> i) & 1) ? GEN[i] : 0]. *)
Definition genRound (top : Z) (chk : Z) (iGen : Z * Z) : Z :=
  Int32.xor chk
    (if (Int32.and (Int32.sar top iGen.1) 1 =? 0)%Z then 0%Z else iGen.2).

(** One round of its outer loop. *)
Definition polymodStep (chk value : Z) : Z :=
  let top := Int32.sar chk 25 in
  let chk := Int32.xor (Int32.shl (Int32.and chk 33554431) 5) value in
  fold_left (genRound top) (List.combine [0; 1; 2; 3; 4]%Z GEN) chk.

Definition bech32Polymod (values : list Z) : Z :=
  fold_left polymodStep values 1%Z.

(** [hrp.charCodeAt(p)] for every [p]. *)
Definition charCodes (s : string) : list Z :=
  List.map (fun c => Z.of_N (N_of_ascii c)) (list_ascii_of_string s).

Definition bech32HrpExpand (hrp : string) : list Z :=
  List.map (fun c => Int32.sar c 5) (charCodes hrp)
  ++ [0%Z]
  ++ List.map (fun c => Int32.and c 31) (charCodes hrp).

Definition bech32CreateChecksum (hrp : string) (data : list Z) : list Z :=
  let values := bech32HrpExpand hrp ++ data ++ [0; 0; 0; 0; 0; 0]%Z in
  let mod_ := Int32.xor (bech32Polymod values) 1 in
  List.map (fun p => Int32.and (Int32.sar mod_ (5 * (5 - p))) 31)
           [0; 1; 2; 3; 4; 5]%Z.

(** [BECH32_CHARSET.charAt(d)]: the empty string outside the table. *)
Definition charAt (d : Z) : string :=
  if (d <? 0)%Z then ""
  else match String.get (Z.to_nat d) BECH32_CHARSET with
       | Some c => String c ""
       | None => ""
       end.

Definition bech32Encode (hrp : string) (data : list Z) : string :=
  let combined := data ++ bech32CreateChecksum hrp data in
  fold_left (fun ret d => ret +:+ charAt d) combined (hrp +:+ "1").

(** What a call of [convertBits] comes to: it returns an array or [null],
    or its [while] loop never ends. *)
Inductive Outcome : Type :=
  | Hangs
  | Returns (ret : option (list Z)).

(** The [while (bits >= toBits)] loop, given more rounds than it can need
    when it ends at all: with [toBits] positive every round takes at least
    one off [bits], and otherwise a loop that starts never stops.  [None]
    when the rounds run out. *)
Fixpoint drain (rounds : nat) (toBits maxv acc bits : Z) (ret : list Z)
    : option (Z * list Z) :=
  match rounds with
  | O => None
  | S rounds' =>
      if (toBits <=? bits)%Z
      then drain rounds' toBits maxv acc (bits - toBits)
             (ret ++ [Int32.and (Int32.sar acc (bits - toBits)) maxv])
      else Some (bits, ret)
  end.

(** The body of [for (const value of data)] on the state [(acc, bits, ret)]:
    [Returns None] is the [return null], and [Returns (Some _)] carries the
    state on. *)
Definition convertStep (fromBits toBits maxv maxAcc : Z)
    (state : Z * Z * list Z) (value : option Z)
    : option (option (Z * Z * list Z)) :=
  let '(acc, bits, ret) := state in
  let v := default 0%Z value in
  if (match value with Some z => (z <? 0)%Z | None => false end)
     || negb (Int32.sar v fromBits =? 0)%Z
  then Some None
  else
    let acc := Int32.and (Int32.or (Int32.shl acc fromBits) v) maxAcc in
    let bits := (bits + fromBits)%Z in
    match drain (S (Z.to_nat bits)) toBits maxv acc bits ret with
    | None => None
    | Some (bits, ret) => Some (Some (acc, bits, ret))
    end.

(** The whole [for] loop: [None] when a [while] inside never ends,
    [Some None] after a [return null]. *)
Fixpoint convertLoop (fromBits toBits maxv maxAcc : Z)
    (state : Z * Z * list Z) (data : list (option Z))
    : option (option (Z * Z * list Z)) :=
  match data with
  | [] => Some (Some state)
  | value :: rest =>
      match convertStep fromBits toBits maxv maxAcc state value with
      | None => None
      | Some None => Some None
      | Some (Some state') =>
          convertLoop fromBits toBits maxv maxAcc state' rest
      end
  end.

Definition convertBits (data : list (option Z)) (fromBits toBits : Z)
    (pad : bool) : Outcome :=
  let maxv := (Int32.shl 1 toBits - 1)%Z in
  let maxAcc := (Int32.shl 1 (fromBits + toBits - 1) - 1)%Z in
  match convertLoop fromBits toBits maxv maxAcc (0%Z, 0%Z, []) data with
  | None => Hangs
  | Some None => Returns None
  | Some (Some (acc, bits, ret)) =>
      if pad then
        if (0 <? bits)%Z
        then Returns (Some (ret ++ [Int32.and (Int32.shl acc (toBits - bits)) maxv]))
        else Returns (Some ret)
      else if (fromBits <=? bits)%Z
              || negb (Int32.and (Int32.shl acc (toBits - bits)) maxv =? 0)%Z
      then Returns None
      else Returns (Some ret)
  end.

(** The loop of [getScriptAddress] that reads the hash two code units at
    a time: [parseInt(scriptHash.substr(i, 2), 16)]. *)
Fixpoint scriptHashBytes (scriptHash : list N) : list (option Z) :=
  match scriptHash with
  | [] => []
  | [a] => [Hex.parseInt16 [a]]
  | a :: b :: rest => Hex.parseInt16 [a; b] :: scriptHashBytes rest
  end.

(** [getScriptAddress]; what is thrown inside is caught and answered with
    the placeholder address.  [None] when [convertBits] does not return. *)
Definition getScriptAddress (scriptHash : list N) : option string :=
  let addressPayload := Some 48%Z :: scriptHashBytes scriptHash in
  match convertBits addressPayload 8 5 true with
  | Hangs => None
  | Returns None =>
      Some "addr_test1wpcrj6e8fc06tvj55vxmv25rrv8zmzyha2wsml7dsvqngu85rsf9z"
  | Returns (Some converted) => Some (bech32Encode "addr_test" converted)
  end.

(** The number a list of digits writes in a base, first digit first. *)
Definition fromDigits (base : Z) (digits : list Z) : Z :=
  fold_left (fun n d => (n * base + d)%Z) digits 0%Z.

End Bech32.

(** The hash of the compiled escrow script, whose address the page
    derives. *)
Definition ESCROW_SCRIPT_HASH : string :=
  "f2388d136606a27c4a531d0040c3e12e07eb95cd5011793c160707dc".

(* ===================================================================== *)
(** ** Specification vocabulary                                           *)
(* ===================================================================== *)

(** [keyword] is a case-insensitive substring of [text]: some stretch of
    [text] equals [keyword] once both are lowercased. *)
Definition occursIgnoringCase (keyword text : string) : Prop :=
  ∃ before stretch after,
    text = before +:+ stretch +:+ after
    ∧ Js.toLowerCase stretch = Js.toLowerCase keyword.

(** A category matches a text when one of its keywords occurs in it. *)
Definition anyKeywordOccurs (keywords : list string) (text : string) : Prop :=
  ∃ keyword, keyword ∈ keywords ∧ occursIgnoringCase keyword text.

(** [c] is the first entry of [taxonomy], in its order, that matches. *)
Definition firstMatch {C : Type} (keywordsOf : C → list string)
    (taxonomy : list C) (text : string) (c : C) : Prop :=
  ∃ earlier later,
    taxonomy = earlier ++ c :: later
    ∧ anyKeywordOccurs (keywordsOf c) text
    ∧ ∀ d, d ∈ earlier → ¬ anyKeywordOccurs (keywordsOf d) text.

Definition noMatch {C : Type} (keywordsOf : C → list string)
    (taxonomy : list C) (text : string) : Prop :=
  ∀ d, d ∈ taxonomy → ¬ anyKeywordOccurs (keywordsOf d) text.

(** Every code unit of the string is white space. *)
Fixpoint allWhiteSpace (s : string) : bool :=
  match s with
  | EmptyString => true
  | String c s' => Js.isWhiteSpace c && allWhiteSpace s'
  end.

(** An optional text field that is absent, empty or blank after trimming. *)
Definition blankText (x : option string) : Prop :=
  Js.trim (Js.orEmpty x) = "".

(** The name of the category whose bucket [categorizeOne] appends an item
    with message [text] to, on the table as [categorizeByMessages] starts
    with it. *)
Definition messageTopic (text : string) : string :=
  match messageCategories !! targetIndex messageCategories (Js.toLowerCase text) with
  | Some category => MessageCategory.category category
  | None => ""
  end.

(** The catch-all entry of the message table. *)
Definition otherMessages : MessageCategory.t :=
  MessageCategory.mk "Other Messages" [] [] "bg-gray-100 border-gray-300 text-gray-800".

(** The names [getErrorCategory] can return, in the order it tests them. *)
Definition errorCategories : list string :=
  ["Insufficient Funds"; "User Cancelled"; "Network Issues";
   "Invalid Address"; "Timeout"; "Other Errors"].

(** The rules of [getErrorCategory] read as an ordered keyword table, the
    shape the fallback's [categoryKeywords] has; "Other Errors" is what is
    left when no rule applies. *)
Definition errorRules : list (string * list string) :=
  [ ("Insufficient Funds", ["insufficient"; "depleted"]);
    ("User Cancelled", ["declined"; "cancelled"]);
    ("Network Issues", ["network"; "connection"]);
    ("Invalid Address", ["address"; "invalid"]);
    ("Timeout", ["timeout"]) ].

(** A keyword that begins with a code unit other than white space. *)
Definition startsNonWhite (keyword : string) : bool :=
  match keyword with
  | EmptyString => false
  | String c _ => negb (Js.isWhiteSpace c)
  end.

(** A keyword whose last code unit is not white space. *)
Fixpoint endsNonWhite (keyword : string) : bool :=
  match keyword with
  | EmptyString => false
  | String c EmptyString => negb (Js.isWhiteSpace c)
  | String _ rest => endsNonWhite rest
  end.

(** A keyword that [trim] cannot cut into. *)
Definition solidKeyword (keyword : string) : bool :=
  startsNonWhite keyword && endsNonWhite keyword.

(** The error category of a transaction, as [groupByError] computes it. *)
Definition errorTypeOf (tx : Transaction) : string :=
  getErrorCategory (Js.orEmpty (errorMessage tx)).

(** The keys of a list in the order they first appear. *)
Fixpoint firstSeen (keys : list string) : list string :=
  match keys with
  | [] => []
  | k :: rest => k :: List.filter (fun j => negb (String.eqb j k)) (firstSeen rest)
  end.

(** The items of [l] of error category [k], in order, and [l] grouped by
    error category, the categories in the order they first appear. *)
Definition keyBucket (k : string) (l : list Transaction) : list Transaction :=
  List.filter (fun tx => String.eqb (errorTypeOf tx) k) l.

Definition grouped (l : list Transaction) : @JsObject.t (list Transaction) :=
  List.map (fun k => (k, keyBucket k l)) (firstSeen (List.map errorTypeOf l)).

(** The transactions the failure grouping is about. *)
Definition failedOf (transactions : list Transaction) : list Transaction :=
  List.filter (fun tx => Status_eqb (status tx) failed) transactions.

(** The failed transactions of error category [k], in input order. *)
Definition errorBucket (k : string) (transactions : list Transaction)
    : list Transaction :=
  keyBucket k (failedOf transactions).

(** The transactions with a message whose topic is [name], in input order. *)
Definition topicBucket (name : string) (transactions : list Transaction)
    : list Transaction :=
  List.filter (fun tx => String.eqb (messageTopic (Js.orEmpty (message tx))) name)
    (List.filter hasMessage transactions).

(** A category with [bucket] appended to its transactions. *)
Definition withBucket (bucket : list Transaction) (c : MessageCategory.t)
    : MessageCategory.t :=
  MessageCategory.mk (MessageCategory.category c) (MessageCategory.keywords c)
    (MessageCategory.transactions c ++ bucket) (MessageCategory.color c).

(** The items of [l] that [categorizeOne] sends to index [i] of [cats]. *)
Definition indexBucket (cats : list MessageCategory.t) (i : nat)
    (l : list Transaction) : list Transaction :=
  List.filter
    (fun tx => Nat.eqb (targetIndex cats (Js.toLowerCase (Js.orEmpty (message tx)))) i)
    l.

(** The view of the message grouping, said directly: each category of the
    table with the bucket of its topic, the empty ones left out. *)
Definition topicGroups (transactions : list Transaction) : list MessageCategory.t :=
  List.filter
    (fun c => Nat.ltb 0 (length (MessageCategory.transactions c)))
    (List.map
       (fun c => MessageCategory.mk (MessageCategory.category c)
                   (MessageCategory.keywords c)
                   (topicBucket (MessageCategory.category c) transactions)
                   (MessageCategory.color c))
       messageCategories).

Definition failedColor : string := "bg-red-100 border-red-300 text-red-800".

(** The view of the status grouping, said directly: the two fixed status
    categories, then one category for each error category met among the
    failed transactions, in the order they are first met. *)
Definition statusGroups (transactions : list Transaction)
    : list TransactionCategory.t :=
  [ TransactionCategory.mk "Successful Transactions"
      (List.filter (fun tx => Status_eqb (status tx) success) transactions)
      "bg-green-100 border-green-300 text-green-800";
    TransactionCategory.mk "Pending Transactions"
      (List.filter (fun tx => Status_eqb (status tx) pending) transactions)
      "bg-yellow-100 border-yellow-300 text-yellow-800" ]
  ++ List.map
       (fun k => TransactionCategory.mk ("Failed: " +:+ k)
                   (errorBucket k transactions) failedColor)
       (firstSeen (List.map errorTypeOf (failedOf transactions))).

(** A number of at most thirty bits, the size of the bech32 checksum
    state. *)
Definition small30 (x : Z) : Prop := (0 ≤ x < 1073741824)%Z.

(** One byte through [convertBits] from 8 to 5 bits, in arithmetic: the
    twelve low bits of the accumulator with the byte behind them, and one
    group of five bits put out, or two when ten bits have gathered. *)
Definition regroupStep (state : Z * Z * list Z) (b : Z) : Z * Z * list Z :=
  let '(acc, bits, ret) := state in
  let acc := ((acc * 256 + b) mod 4096)%Z in
  let bits := (bits + 8)%Z in
  if (bits - 5 <? 5)%Z
  then (acc, bits - 5, ret ++ [(acc / 2 ^ (bits - 5)) mod 32])%Z
  else (acc, bits - 10,
        ret ++ [(acc / 2 ^ (bits - 5)) mod 32; (acc / 2 ^ (bits - 10)) mod 32])%Z.

(** A value [convertBits] takes for a byte: 0 to 255, or [NaN], which it
    reads as 0. *)
Definition isByte (value : option Z) : Prop :=
  match value with
  | Some b => (0 ≤ b < 256)%Z
  | None => True
  end.

(** What [convertBits] holds after the bytes [bytes]: fewer than five
    bits wait in the accumulator, and the groups put out, followed by
    those bits, write the same number as the bytes. *)
Definition regrouped (bytes : list Z) (state : Z * Z * list Z) : Prop :=
  let '(acc, bits, ret) := state in
  (0 ≤ acc < 4096
   ∧ 0 ≤ bits < 5
   ∧ 8 * Z.of_nat (length bytes) = 5 * Z.of_nat (length ret) + bits
   ∧ Bech32.fromDigits 256 bytes
     = Bech32.fromDigits 32 ret * 2 ^ bits + acc mod 2 ^ bits
   ∧ Forall (fun g => 0 ≤ g < 32) ret)%Z.

(** The characters [bech32Encode] writes for a list of groups. *)
Definition groupChars (groups : list Z) : string :=
  fold_right (fun d rest => Bech32.charAt d +:+ rest) "" groups.

(** A character of the bech32 alphabet. *)
Definition inCharset (c : ascii) : Prop :=
  c ∈ list_ascii_of_string Bech32.BECH32_CHARSET.

(** A byte, or [NaN], as a boolean. *)
Definition isByteb (value : option Z) : bool :=
  match value with Some b => (0 <=? b)%Z && (b <? 256)%Z | None => true end.

(** A transaction that only differs from the others in the fields the
    groupings read. *)
Definition sampleTx (i : string) (s : Status) (m e : option string) : Transaction :=
  mkTransaction i 0 "1.000000" (Some "Unknown") None m s e None None "preprod"
    None None None.

(* ===================================================================== *)
(** ** Worked examples                                                    *)
(* ===================================================================== *)

Example toLowerCase_example : Js.toLowerCase "GIFT for Mom" = "gift for mom".
Proof. reflexivity. Qed.

Example includes_example :
  Js.includes "network timeout occurred" "timeout" = true
  ∧ Js.includes "network timeout occurred" "time out" = false.
Proof. split; reflexivity. Qed.

Example trim_example : Js.trim "  a b  " = "a b".
Proof. reflexivity. Qed.

Example fallback_examples :
  fallbackCategorization "Let's grab dinner" = "Food"
  ∧ fallbackCategorization "test payment" = "Bills"
  ∧ fallbackCategorization "hello" = "Other".
Proof. repeat split. Qed.

Example messageTopic_examples :
  messageTopic "Let's grab dinner" = "Food & Dining"
  ∧ messageTopic "I have a business proposal for dinner contract"
    = "Business & Work"
  ∧ messageTopic "hello" = "Other Messages".
Proof. repeat split. Qed.

(** Four transactions, one of them with a blank message: three buckets in
    table order, each in input order. *)
Example categorizeByMessages_example :
  categorizeByMessages
    [ sampleTx "a" success (Some "hello") None;
      sampleTx "b" failed (Some "Pizza night") None;
      sampleTx "c" pending (Some "   ") None;
      sampleTx "d" success (Some "Rent PAYMENT") None;
      sampleTx "e" success (Some "lunch") None ]
  = Some
      [ MessageCategory.mk "Payments & Purchases"
          ["payment"; "purchase"; "buy"; "pay"; "invoice"; "bill"; "shopping"; "store"]
          [sampleTx "d" success (Some "Rent PAYMENT") None]
          "bg-blue-100 border-blue-300 text-blue-800";
        MessageCategory.mk "Food & Dining"
          ["food"; "dinner"; "lunch"; "restaurant"; "coffee"; "meal"; "pizza"; "delivery"]
          [sampleTx "b" failed (Some "Pizza night") None;
           sampleTx "e" success (Some "lunch") None]
          "bg-orange-100 border-orange-300 text-orange-800";
        MessageCategory.mk "Other Messages" []
          [sampleTx "a" success (Some "hello") None]
          "bg-gray-100 border-gray-300 text-gray-800" ].
Proof. reflexivity. Qed.

Example categorizeTransactions_example :
  categorizeTransactions
    [ sampleTx "a" failed None (Some "Connection lost");
      sampleTx "b" success (Some "lunch") None;
      sampleTx "c" failed None None;
      sampleTx "d" failed None (Some "Network unreachable") ]
  = Some
      [ TransactionCategory.mk "Successful Transactions"
          [sampleTx "b" success (Some "lunch") None]
          "bg-green-100 border-green-300 text-green-800";
        TransactionCategory.mk "Pending Transactions" []
          "bg-yellow-100 border-yellow-300 text-yellow-800";
        TransactionCategory.mk "Failed: Network Issues"
          [sampleTx "a" failed None (Some "Connection lost");
           sampleTx "d" failed None (Some "Network unreachable")]
          "bg-red-100 border-red-300 text-red-800";
        TransactionCategory.mk "Failed: Other Errors"
          [sampleTx "c" failed None None]
          "bg-red-100 border-red-300 text-red-800" ].
Proof. reflexivity. Qed.

(* ===================================================================== *)
(** ** Strings                                                            *)
(* ===================================================================== *)

Lemma lowerChar_idem (c : ascii) : Js.lowerChar (Js.lowerChar c) = Js.lowerChar c.
Proof. destruct c as [[] [] [] [] [] [] [] []]; reflexivity. Qed.

Lemma lowerChar_white (c : ascii) :
  Js.isWhiteSpace c = true → Js.lowerChar c = c.
Proof. destruct c as [[] [] [] [] [] [] [] []]; intros H; try reflexivity; discriminate H. Qed.

Lemma toLowerCase_idem (s : string) :
  Js.toLowerCase (Js.toLowerCase s) = Js.toLowerCase s.
Proof.
  induction s as [|c s IH]; simpl; [reflexivity|].
  now rewrite lowerChar_idem, IH.
Qed.

Lemma toLowerCase_app (a b : string) :
  Js.toLowerCase (a +:+ b) = Js.toLowerCase a +:+ Js.toLowerCase b.
Proof. induction a as [|c a IH]; simpl; [reflexivity|]. now rewrite IH. Qed.

(** A split of the lowercased string comes from a split of the string. *)
Lemma toLowerCase_split (t a b : string) :
  Js.toLowerCase t = a +:+ b →
  ∃ t1 t2, t = t1 +:+ t2 ∧ Js.toLowerCase t1 = a ∧ Js.toLowerCase t2 = b.
Proof.
  revert t. induction a as [|c a IH]; intros t H; simpl in H.
  - exists "", t. auto.
  - destruct t as [|d t]; simpl in H; [discriminate|].
    injection H as Hc Ht. destruct (IH _ Ht) as (t1 & t2 & -> & H1 & H2).
    exists (String d t1), t2. simpl. rewrite H1, Hc. auto.
Qed.

Lemma prefix_spec (p s : string) :
  String.prefix p s = true ↔ ∃ rest, s = p +:+ rest.
Proof.
  revert s. induction p as [|c p IH]; intros s; simpl.
  - split; [intros _; exists s; reflexivity | intros _; now destruct s].
  - destruct s as [|d s].
    + split; [discriminate | intros [r Hr]; discriminate Hr].
    + simpl. destruct (Ascii.ascii_dec c d) as [->|Hne].
      * rewrite IH. split; intros [r Hr]; exists r.
        -- simpl. now rewrite Hr.
        -- simpl in Hr. now injection Hr.
      * split; [discriminate|]. intros [r Hr]. simpl in Hr.
        injection Hr as Hd _. now destruct Hne.
Qed.

Lemma includes_spec (s n : string) :
  Js.includes s n = true ↔ ∃ before after, s = before +:+ n +:+ after.
Proof.
  induction s as [|c s IH]; cbn [Js.includes];
    rewrite orb_true_iff, prefix_spec.
  - split.
    + intros [[r Hr] | H]; [|discriminate H]. exists "", r. exact Hr.
    + intros ([|d b] & a & H); [left; exists a; exact H | discriminate H].
  - rewrite IH. split.
    + intros [[r Hr] | (b & a & H)].
      * exists "", r. exact Hr.
      * exists (String c b), a. simpl. now rewrite H.
    + intros ([|d b] & a & H).
      * left. exists a. exact H.
      * right. simpl in H. injection H as _ H. exists b, a. exact H.
Qed.

(** [includes] after lowercasing both sides is the case-insensitive
    substring test. *)
Lemma includes_lower_spec (text keyword : string) :
  Js.includes (Js.toLowerCase text) (Js.toLowerCase keyword) = true
  ↔ occursIgnoringCase keyword text.
Proof.
  rewrite includes_spec. split.
  - intros (b & a & H).
    destruct (toLowerCase_split _ _ _ H) as (t1 & t23 & -> & H1 & H23).
    destruct (toLowerCase_split _ _ _ H23) as (t2 & t3 & -> & H2 & H3).
    exists t1, t2, t3. auto.
  - intros (b & m & a & -> & Hm).
    exists (Js.toLowerCase b), (Js.toLowerCase a).
    now rewrite !toLowerCase_app, Hm.
Qed.

(* ===================================================================== *)
(** ** The classifiers                                                    *)
(* ===================================================================== *)

Lemma existsb_elem_of {A : Type} (f : A → bool) (l : list A) :
  existsb f l = true ↔ ∃ x, x ∈ l ∧ f x = true.
Proof.
  rewrite existsb_exists. split; intros (x & Hx & Hf); exists x; split; auto;
    now apply list_elem_of_In.
Qed.

(** Whether a keyword of a list occurs in a text can be computed. *)
Lemma anyKeywordOccurs_existsb (kws : list string) (text : string) :
  existsb (fun k => Js.includes (Js.toLowerCase text) (Js.toLowerCase k)) kws = true
  ↔ anyKeywordOccurs kws text.
Proof.
  unfold anyKeywordOccurs. rewrite existsb_elem_of.
  split; intros (k & Hk & H); exists k; split; auto; now apply includes_lower_spec.
Qed.

(** Either some entry of a taxonomy is the first to match, or none does. *)
Lemma firstMatch_or_noMatch {C : Type} (keywordsOf : C → list string)
    (taxonomy : list C) (text : string) :
  (∃ c, firstMatch keywordsOf taxonomy text c) ∨ noMatch keywordsOf taxonomy text.
Proof.
  induction taxonomy as [|c cs IH].
  - right. intros d Hd. inversion Hd.
  - destruct (existsb (fun k => Js.includes (Js.toLowerCase text) (Js.toLowerCase k))
                (keywordsOf c)) eqn:E.
    + left. exists c, [], cs. split; [reflexivity|]. split.
      * now apply anyKeywordOccurs_existsb.
      * intros d Hd. inversion Hd.
    + assert (Hc : ¬ anyKeywordOccurs (keywordsOf c) text).
      { rewrite <- anyKeywordOccurs_existsb. congruence. }
      destruct IH as [(c' & earlier & later & -> & Hc' & He) | Hnone].
      * left. exists c', (c :: earlier), later. split; [reflexivity|].
        split; [exact Hc'|]. intros d Hd.
        apply elem_of_cons in Hd as [->|Hd]; [exact Hc | now apply He].
      * right. intros d Hd.
        apply elem_of_cons in Hd as [->|Hd]; [exact Hc | now apply Hnone].
Qed.

Lemma hasKeyword_spec (text : string) (c : MessageCategory.t) :
  hasKeyword (Js.toLowerCase text) c = true
  ↔ anyKeywordOccurs (MessageCategory.keywords c) text.
Proof.
  unfold hasKeyword, anyKeywordOccurs. rewrite existsb_elem_of.
  split; intros (k & Hk & H); exists k; split; auto; now apply includes_lower_spec.
Qed.

Lemma hasKeyword_false_spec (text : string) (c : MessageCategory.t) :
  ¬ anyKeywordOccurs (MessageCategory.keywords c) text →
  hasKeyword (Js.toLowerCase text) c = false.
Proof.
  intros H. apply not_true_is_false. now rewrite hasKeyword_spec.
Qed.

Lemma categoryLoop_none (m : string) (cs : list MessageCategory.t) (i : nat) :
  (∀ d, d ∈ cs → hasKeyword m d = false) → categoryLoop m cs i = None.
Proof.
  revert i. induction cs as [|c cs IH]; intros i H; simpl; [reflexivity|].
  rewrite (H c) by constructor. apply IH. intros d Hd. apply H. now constructor.
Qed.

Lemma categoryLoop_first (m : string) (earlier later : list MessageCategory.t)
    (c : MessageCategory.t) (i : nat) :
  hasKeyword m c = true →
  (∀ d, d ∈ earlier → hasKeyword m d = false) →
  categoryLoop m (earlier ++ c :: later) i = Some (i + length earlier).
Proof.
  intros Hc. revert i. induction earlier as [|e earlier IH]; intros i H; simpl.
  - rewrite Hc. f_equal. lia.
  - rewrite (H e) by constructor. rewrite IH.
    + f_equal. lia.
    + intros d Hd. apply H. now constructor.
Qed.

(** The loop leaves out exactly the last element of the array. *)
Lemma take_all_but_last {A : Type} (front : list A) (x : A) :
  take (length (front ++ [x]) - 1) (front ++ [x]) = front.
Proof.
  rewrite length_app. simpl.
  replace (length front + 1 - 1) with (length front) by lia.
  now rewrite take_app_length.
Qed.

Lemma targetIndex_first (m : string) (earlier later : list MessageCategory.t)
    (c other : MessageCategory.t) :
  hasKeyword m c = true →
  (∀ d, d ∈ earlier → hasKeyword m d = false) →
  targetIndex (earlier ++ c :: later ++ [other]) m = length earlier.
Proof.
  intros Hc He. unfold targetIndex.
  replace (earlier ++ c :: later ++ [other])
    with ((earlier ++ c :: later) ++ [other]) by now rewrite <- app_assoc.
  rewrite take_all_but_last, categoryLoop_first by assumption. reflexivity.
Qed.

Lemma targetIndex_none (m : string) (front : list MessageCategory.t)
    (other : MessageCategory.t) :
  (∀ d, d ∈ front → hasKeyword m d = false) →
  targetIndex (front ++ [other]) m = length front.
Proof.
  intros H. unfold targetIndex.
  rewrite take_all_but_last, categoryLoop_none by assumption.
  rewrite length_app. simpl. lia.
Qed.

(** The index chosen is always one the array has. *)
Lemma categoryLoop_bound (m : string) (cs : list MessageCategory.t) (i j : nat) :
  categoryLoop m cs i = Some j → j < i + length cs.
Proof.
  revert i. induction cs as [|c cs IH]; intros i; simpl; [discriminate|].
  destruct (hasKeyword m c).
  - intros [= <-]. lia.
  - intros H. apply IH in H. lia.
Qed.

Lemma targetIndex_bound (m : string) (cats : list MessageCategory.t) :
  cats ≠ [] → targetIndex cats m < length cats.
Proof.
  intros Hne. unfold targetIndex.
  assert (0 < length cats) by (destruct cats; [congruence | simpl; lia]).
  destruct (categoryLoop m _ 0) as [j|] eqn:E; [|lia].
  apply categoryLoop_bound in E. rewrite length_take in E. lia.
Qed.

Lemma messageCategories_split :
  messageCategories = take 6 messageCategories ++ [otherMessages].
Proof. reflexivity. Qed.

Lemma no_keyword_occurs (text : string) : ¬ anyKeywordOccurs [] text.
Proof. intros (k & Hk & _). inversion Hk. Qed.

(** A first match in the message table picks the topic. *)
Lemma messageTopic_first (text : string) (c : MessageCategory.t) :
  firstMatch MessageCategory.keywords messageCategories text c →
  messageTopic text = MessageCategory.category c.
Proof.
  intros (earlier & later & Hsplit & Hc & He).
  assert (Hlater : ∃ later', later = later' ++ [otherMessages]).
  { destruct (decide (later = [])) as [->|Hne].
    - exfalso. apply (f_equal last) in Hsplit. rewrite last_snoc in Hsplit.
      injection Hsplit as <-. now apply no_keyword_occurs in Hc.
    - destruct (exists_last Hne) as (later' & x & ->). exists later'.
      replace (earlier ++ c :: later' ++ [x])
        with ((earlier ++ c :: later') ++ [x]) in Hsplit
        by now rewrite <- app_assoc.
      apply (f_equal last) in Hsplit. rewrite last_snoc in Hsplit.
      now injection Hsplit as <-. }
  destruct Hlater as (later' & ->).
  unfold messageTopic. rewrite Hsplit, targetIndex_first.
  - rewrite list_lookup_middle by reflexivity. reflexivity.
  - now apply hasKeyword_spec.
  - intros d Hd. apply hasKeyword_false_spec. now apply He.
Qed.

Lemma messageTopic_none (text : string) :
  noMatch MessageCategory.keywords
    (take (length messageCategories - 1) messageCategories) text →
  messageTopic text = "Other Messages".
Proof.
  intros H. unfold messageTopic. rewrite messageCategories_split.
  rewrite targetIndex_none; [reflexivity|].
  intros d Hd. apply hasKeyword_false_spec, H. exact Hd.
Qed.

(** *** The fallback of utils/ai.ts *)

Lemma keywordLoop_existsb (m : string) (kws : list string) :
  keywordLoop m kws = existsb (Js.includes m) kws.
Proof.
  induction kws as [|k kws IH]; simpl; [reflexivity|].
  rewrite IH. now destruct (Js.includes m k).
Qed.

(** Every keyword of the fallback table is written in lower case. *)
Lemma categoryKeywords_lowercase (e : string * list string) (k : string) :
  e ∈ categoryKeywords → k ∈ e.2 → Js.toLowerCase k = k.
Proof.
  intros He Hk.
  assert (H : forallb (fun e : string * list string =>
                forallb (fun k => String.eqb (Js.toLowerCase k) k) e.2)
              categoryKeywords = true) by (vm_compute; reflexivity).
  rewrite forallb_forall in H. apply list_elem_of_In, H in He.
  rewrite forallb_forall in He. apply list_elem_of_In, He in Hk.
  now apply String.eqb_eq.
Qed.

Lemma keywordLoop_spec (text : string) (e : string * list string) :
  e ∈ categoryKeywords →
  keywordLoop (Js.toLowerCase text) e.2 = true ↔ anyKeywordOccurs e.2 text.
Proof.
  intros He. rewrite keywordLoop_existsb, existsb_elem_of.
  unfold anyKeywordOccurs.
  split; intros (k & Hk & H); exists k; split; auto.
  - apply includes_lower_spec. now rewrite (categoryKeywords_lowercase e k).
  - apply includes_lower_spec in H. now rewrite (categoryKeywords_lowercase e k) in H.
Qed.

Lemma entryLoop_none (m : string) (entries : list (string * list string)) :
  (∀ e, e ∈ entries → keywordLoop m e.2 = false) → entryLoop m entries = None.
Proof.
  induction entries as [|[name kws] entries IH]; intros H; simpl; [reflexivity|].
  pose proof (H (name, kws) ltac:(constructor)) as Hk. simpl in Hk.
  rewrite Hk. apply IH. intros e He. apply H. now constructor.
Qed.

Lemma entryLoop_first (m : string) (earlier later : list (string * list string))
    (e : string * list string) :
  keywordLoop m e.2 = true →
  (∀ d, d ∈ earlier → keywordLoop m d.2 = false) →
  entryLoop m (earlier ++ e :: later) = Some e.1.
Proof.
  intros He. induction earlier as [|[name kws] earlier IH]; intros H; simpl.
  - destruct e as [name kws]. simpl in *. now rewrite He.
  - pose proof (H (name, kws) ltac:(constructor)) as Hk. simpl in Hk.
    rewrite Hk. apply IH. intros d Hd. apply H. now constructor.
Qed.

Lemma fallback_first (text : string) (e : string * list string) :
  firstMatch snd categoryKeywords text e → fallbackCategorization text = e.1.
Proof.
  intros (earlier & later & Hsplit & He & Hearlier).
  assert (Hin : ∀ d, d ∈ earlier ∨ d = e → d ∈ categoryKeywords).
  { intros d Hd. rewrite Hsplit. apply elem_of_app.
    destruct Hd as [Hd| ->]; [now left | right; constructor]. }
  unfold fallbackCategorization. cbv zeta. rewrite Hsplit, entryLoop_first.
  - reflexivity.
  - apply keywordLoop_spec; auto.
  - intros d Hd. apply not_true_is_false. rewrite keywordLoop_spec by auto.
    now apply Hearlier.
Qed.

Lemma fallback_none (text : string) :
  noMatch snd categoryKeywords text → fallbackCategorization text = "Other".
Proof.
  intros H. unfold fallbackCategorization. cbv zeta. rewrite entryLoop_none.
  - reflexivity.
  - intros e He. apply not_true_is_false. rewrite keywordLoop_spec by auto.
    now apply H.
Qed.

(** C1.  Both message classifiers are first-match-wins over their table:
    the message-topic classifier of [categorizeByMessages] and the fallback
    of utils/ai.ts return the name of the first category, in table order,
    one of whose keywords is a case-insensitive substring of the text, and
    the name of the catch-all ("Other Messages", "Other") when no category
    with keywords matches; one of the two cases always applies.  The
    message "test payment" is a payment, not a test. *)
Theorem first_match_wins (text : string) :
  (∀ c, firstMatch MessageCategory.keywords messageCategories text c →
        messageTopic text = MessageCategory.category c)
  ∧ (noMatch MessageCategory.keywords
       (take (length messageCategories - 1) messageCategories) text →
     messageTopic text = "Other Messages")
  ∧ ((∃ c, firstMatch MessageCategory.keywords messageCategories text c)
     ∨ noMatch MessageCategory.keywords
         (take (length messageCategories - 1) messageCategories) text)
  ∧ (∀ e, firstMatch snd categoryKeywords text e →
          fallbackCategorization text = e.1)
  ∧ (noMatch snd categoryKeywords text → fallbackCategorization text = "Other")
  ∧ ((∃ e, firstMatch snd categoryKeywords text e)
     ∨ noMatch snd categoryKeywords text)
  ∧ messageTopic "test payment" = "Payments & Purchases"
  ∧ messageTopic "test payment" ≠ "Testing & Development".
Proof.
  split; [exact (messageTopic_first text)|].
  split; [exact (messageTopic_none text)|].
  split.
  { destruct (firstMatch_or_noMatch MessageCategory.keywords messageCategories text)
      as [H|H]; [now left | right].
    intros d Hd. apply H. rewrite messageCategories_split.
    apply elem_of_app. now left. }
  split; [exact (fallback_first text)|].
  split; [exact (fallback_none text)|].
  split; [apply firstMatch_or_noMatch|].
  split; [reflexivity | discriminate].
Qed.

(** "test payment" holds a keyword of the first and of the sixth category
    of the message table, and the first one wins; "hello" holds no keyword
    at all. *)
Lemma first_match_wins_witness :
  (firstMatch MessageCategory.keywords messageCategories "test payment"
     (MessageCategory.mk "Payments & Purchases"
        ["payment"; "purchase"; "buy"; "pay"; "invoice"; "bill"; "shopping"; "store"]
        [] "bg-blue-100 border-blue-300 text-blue-800")
   ∧ anyKeywordOccurs
       ["test"; "testing"; "demo"; "example"; "try"; "sample"; "debug"; "dev"]
       "test payment"
   ∧ messageTopic "test payment" = "Payments & Purchases")
  ∧ (noMatch MessageCategory.keywords
       (take (length messageCategories - 1) messageCategories) "hello"
     ∧ messageTopic "hello" = "Other Messages").
Proof.
  assert (H : firstMatch MessageCategory.keywords messageCategories "test payment"
    (MessageCategory.mk "Payments & Purchases"
       ["payment"; "purchase"; "buy"; "pay"; "invoice"; "bill"; "shopping"; "store"]
       [] "bg-blue-100 border-blue-300 text-blue-800")).
  { exists [], (drop 1 messageCategories). split; [reflexivity|]. split.
    - exists "payment". split; [constructor|].
      exists "test ", "payment", "". split; reflexivity.
    - intros d Hd. inversion Hd. }
  assert (N : noMatch MessageCategory.keywords
                (take (length messageCategories - 1) messageCategories) "hello").
  { intros d Hd. rewrite <- anyKeywordOccurs_existsb.
    assert (Hall : forallb
              (fun c => negb (existsb
                 (fun k => Js.includes (Js.toLowerCase "hello") (Js.toLowerCase k))
                 (MessageCategory.keywords c)))
              (take (length messageCategories - 1) messageCategories) = true)
      by reflexivity.
    rewrite forallb_forall in Hall. apply list_elem_of_In, Hall in Hd.
    apply negb_true_iff in Hd. congruence. }
  split; [split; [exact H | split] | split; [exact N|]].
  - exists "test". split; [constructor|].
    exists "", "test", " payment". split; reflexivity.
  - exact (proj1 (first_match_wins "test payment") _ H).
  - exact (proj1 (proj2 (first_match_wins "hello")) N).
Defined.

(** *** Error categories *)

(** The chain of tests in [getErrorCategory] is the table classifier run on
    [errorRules]. *)
Lemma getErrorCategory_rules (s : string) :
  getErrorCategory s
  = match entryLoop (Js.toLowerCase s) errorRules with
    | Some name => name
    | None => "Other Errors"
    end.
Proof.
  unfold getErrorCategory. cbv zeta. cbn [entryLoop errorRules keywordLoop].
  repeat (destruct (Js.includes _ _); cbn [orb]; try reflexivity).
Qed.

(** C5.  The three documented error strings: insufficient funds, a declined
    transaction, and "Network timeout occurred", which holds both "network"
    and "timeout" and is a network issue because the rules are tried in the
    order Insufficient Funds, User Cancelled, Network Issues, Invalid
    Address, Timeout. *)
Theorem error_examples :
  getErrorCategory "Insufficient funds in wallet" = "Insufficient Funds"
  ∧ getErrorCategory "User declined the transaction" = "User Cancelled"
  ∧ getErrorCategory "Network timeout occurred" = "Network Issues"
  ∧ getErrorCategory "Network timeout occurred" ≠ "Timeout"
  ∧ occursIgnoringCase "network" "Network timeout occurred"
  ∧ occursIgnoringCase "timeout" "Network timeout occurred"
  ∧ errorRules.*1 = ["Insufficient Funds"; "User Cancelled"; "Network Issues";
                     "Invalid Address"; "Timeout"]
  ∧ ∀ s, getErrorCategory s
         = default "Other Errors" (entryLoop (Js.toLowerCase s) errorRules).
Proof.
  repeat split; try reflexivity; try discriminate.
  - exists "", "Network", " timeout occurred". split; reflexivity.
  - exists "Network ", "timeout", " occurred". split; reflexivity.
  - intros s. rewrite getErrorCategory_rules. now destruct (entryLoop _ _).
Qed.

(** *** Membership in the taxonomy *)

Lemma entryLoop_name (m : string) (entries : list (string * list string))
    (name : string) :
  entryLoop m entries = Some name → name ∈ entries.*1.
Proof.
  induction entries as [|[n kws] entries IH]; simpl; [discriminate|].
  destruct (keywordLoop m kws).
  - intros [= ->]. constructor.
  - intros H. constructor. now apply IH.
Qed.

Lemma fallback_member (s : string) :
  fallbackCategorization s ∈ TRANSACTION_CATEGORIES.
Proof.
  unfold fallbackCategorization. cbv zeta.
  change TRANSACTION_CATEGORIES with (categoryKeywords.*1 ++ ["Other"]).
  apply elem_of_app.
  destruct (entryLoop _ _) as [name|] eqn:E.
  - left. now apply entryLoop_name in E.
  - right. constructor.
Qed.

Lemma getErrorCategory_member (s : string) :
  getErrorCategory s ∈ errorCategories.
Proof.
  rewrite getErrorCategory_rules.
  change errorCategories with (errorRules.*1 ++ ["Other Errors"]).
  apply elem_of_app.
  destruct (entryLoop _ _) as [name|] eqn:E.
  - left. now apply entryLoop_name in E.
  - right. constructor.
Qed.

Lemma messageTopic_lookup (s : string) :
  ∃ c, messageCategories !! targetIndex messageCategories (Js.toLowerCase s) = Some c
       ∧ messageTopic s = MessageCategory.category c.
Proof.
  unfold messageTopic.
  destruct (lookup_lt_is_Some_2 messageCategories
              (targetIndex messageCategories (Js.toLowerCase s))) as [c Hc].
  - now apply targetIndex_bound.
  - exists c. now rewrite Hc.
Qed.

Lemma messageTopic_member (s : string) :
  messageTopic s ∈ MessageCategory.category <$> messageCategories.
Proof.
  destruct (messageTopic_lookup s) as (c & Hc & ->).
  apply list_elem_of_fmap. exists c. split; [reflexivity|].
  eapply list_elem_of_lookup_2, Hc.
Qed.

(** C7.  The classifiers are total, and what they return is a name of
    their taxonomy: the fallback returns one of [TRANSACTION_CATEGORIES],
    [getErrorCategory] one of the six error names, and the message-topic
    classifier the name of one of the seven message categories. *)
Theorem classifiers_stay_in_taxonomy (s : string) :
  fallbackCategorization s ∈ TRANSACTION_CATEGORIES
  ∧ getErrorCategory s ∈ errorCategories
  ∧ messageTopic s ∈ MessageCategory.category <$> messageCategories.
Proof.
  split; [apply fallback_member|].
  split; [apply getErrorCategory_member | apply messageTopic_member].
Qed.

(** *** Blank text *)

Lemma trimEnd_white (s : string) :
  Js.trimEnd s = "" ↔ allWhiteSpace s = true.
Proof.
  induction s as [|c s IH]; simpl; [tauto|].
  destruct (Js.trimEnd s) as [|d t] eqn:E.
  - destruct (Js.isWhiteSpace c); simpl.
    + now rewrite <- IH.
    + split; discriminate.
  - split; [discriminate|]. intros H. apply andb_true_iff in H as [_ H].
    now apply IH in H.
Qed.

Lemma trimStart_white (s : string) :
  allWhiteSpace (Js.trimStart s) = true ↔ allWhiteSpace s = true.
Proof.
  induction s as [|c s IH]; simpl; [tauto|].
  destruct (Js.isWhiteSpace c) eqn:E; simpl; [exact IH | now rewrite E].
Qed.

(** A string trims to nothing exactly when it is empty or all white space. *)
Lemma trim_empty (s : string) : Js.trim s = "" ↔ allWhiteSpace s = true.
Proof. unfold Js.trim. now rewrite trimEnd_white, trimStart_white. Qed.

Lemma toLowerCase_white (s : string) :
  allWhiteSpace s = true → Js.toLowerCase s = s.
Proof.
  induction s as [|c s IH]; simpl; [reflexivity|].
  intros H. apply andb_true_iff in H as [Hc Hs].
  now rewrite lowerChar_white, IH.
Qed.

(** No keyword that begins with a letter occurs in a blank string. *)
Lemma includes_blank (s k : string) :
  allWhiteSpace s = true → startsNonWhite k = true → Js.includes s k = false.
Proof.
  destruct k as [|c k]; [discriminate|]. simpl. intros Hs Hc.
  apply negb_true_iff in Hc.
  induction s as [|d s IH]; [reflexivity|].
  simpl in Hs. apply andb_true_iff in Hs as [Hd Hs].
  cbn [Js.includes String.prefix]. rewrite IH by assumption.
  destruct (Ascii.ascii_dec c d) as [->|_]; [congruence | reflexivity].
Qed.

Lemma keywordLoop_blank (s : string) (kws : list string) :
  allWhiteSpace s = true → forallb startsNonWhite kws = true →
  keywordLoop s kws = false.
Proof.
  intros Hs. induction kws as [|k kws IH]; simpl; [reflexivity|].
  intros H. apply andb_true_iff in H as [Hk H].
  rewrite includes_blank by assumption. now apply IH.
Qed.

Lemma entryLoop_blank (s : string) (entries : list (string * list string)) :
  allWhiteSpace s = true →
  forallb (fun e : string * list string => forallb startsNonWhite e.2) entries = true →
  entryLoop s entries = None.
Proof.
  intros Hs H. apply entryLoop_none. intros e He.
  rewrite forallb_forall in H. apply keywordLoop_blank; [assumption|].
  now apply H, list_elem_of_In.
Qed.

Lemma hasKeyword_blank (s : string) (c : MessageCategory.t) :
  allWhiteSpace s = true →
  forallb (fun k => startsNonWhite (Js.toLowerCase k)) (MessageCategory.keywords c) = true →
  hasKeyword s c = false.
Proof.
  intros Hs H. unfold hasKeyword. apply not_true_is_false.
  rewrite existsb_elem_of. intros (k & Hk & Hin).
  rewrite forallb_forall in H. apply list_elem_of_In, H in Hk.
  now rewrite includes_blank in Hin.
Qed.

Lemma fallback_blank (s : string) :
  allWhiteSpace s = true → fallbackCategorization s = "Other".
Proof.
  intros Hs. unfold fallbackCategorization. cbv zeta.
  rewrite toLowerCase_white, entryLoop_blank by (assumption || reflexivity).
  reflexivity.
Qed.

Lemma getErrorCategory_blank (s : string) :
  allWhiteSpace s = true → getErrorCategory s = "Other Errors".
Proof.
  intros Hs. rewrite getErrorCategory_rules.
  rewrite toLowerCase_white, entryLoop_blank by (assumption || reflexivity).
  reflexivity.
Qed.

Lemma messageTopic_blank (s : string) :
  allWhiteSpace s = true → messageTopic s = "Other Messages".
Proof.
  intros Hs. unfold messageTopic.
  rewrite toLowerCase_white, messageCategories_split by assumption.
  rewrite targetIndex_none; [reflexivity|].
  intros d Hd. apply hasKeyword_blank; [assumption|].
  assert (H : forallb (fun c => forallb (fun k => startsNonWhite (Js.toLowerCase k))
                                  (MessageCategory.keywords c))
                (take 6 messageCategories) = true) by reflexivity.
  rewrite forallb_forall in H. now apply H, list_elem_of_In.
Qed.

(** C8.  A string that is empty or trims to nothing, being white space
    only, goes to the catch-all of every classifier: "Other" for the
    fallback, "Other Errors" for the error classifier and "Other Messages"
    for the message-topic classifier; no keyword of any table occurs in it. *)
Theorem blank_text_is_catch_all (s : string) :
  Js.trim s = "" →
  fallbackCategorization s = "Other"
  ∧ getErrorCategory s = "Other Errors"
  ∧ messageTopic s = "Other Messages".
Proof.
  intros H. apply trim_empty in H.
  split; [now apply fallback_blank|].
  split; [now apply getErrorCategory_blank | now apply messageTopic_blank].
Qed.

(** The empty string, and a string of a space, a tab and a line feed. *)
Lemma blank_text_is_catch_all_witness :
  (Js.trim "" = ""
   ∧ fallbackCategorization "" = "Other"
   ∧ getErrorCategory "" = "Other Errors"
   ∧ messageTopic "" = "Other Messages")
  ∧ (Js.trim (String " " (String "009" (String "010" ""))) = ""
     ∧ fallbackCategorization (String " " (String "009" (String "010" ""))) = "Other"
     ∧ getErrorCategory (String " " (String "009" (String "010" ""))) = "Other Errors"
     ∧ messageTopic (String " " (String "009" (String "010" ""))) = "Other Messages").
Proof.
  split.
  - split; [reflexivity|]. apply (blank_text_is_catch_all ""). reflexivity.
  - split; [reflexivity|].
    apply (blank_text_is_catch_all (String " " (String "009" (String "010" "")))).
    reflexivity.
Defined.

(** *** Case *)

(** C9.  Classification does not look at case: a string and its lowercased
    form get the same category from each classifier, and so do any two
    strings that agree once lowercased; "GIFT for mom" and "gift for mom"
    are classified alike. *)
Theorem classification_ignores_case (s : string) :
  messageTopic (Js.toLowerCase s) = messageTopic s
  ∧ fallbackCategorization (Js.toLowerCase s) = fallbackCategorization s
  ∧ getErrorCategory (Js.toLowerCase s) = getErrorCategory s
  ∧ (∀ t, Js.toLowerCase t = Js.toLowerCase s →
          messageTopic t = messageTopic s
          ∧ fallbackCategorization t = fallbackCategorization s
          ∧ getErrorCategory t = getErrorCategory s)
  ∧ messageTopic "GIFT for mom" = messageTopic "gift for mom"
  ∧ fallbackCategorization "GIFT for mom" = fallbackCategorization "gift for mom".
Proof.
  unfold messageTopic, fallbackCategorization, getErrorCategory. cbv zeta.
  rewrite toLowerCase_idem.
  repeat split; try reflexivity; now rewrite H.
Qed.

(* ===================================================================== *)
(** ** The message-topic grouping                                         *)
(* ===================================================================== *)

Lemma categoryLoop_ext (m : string) (l1 l2 : list MessageCategory.t) (i : nat) :
  hasKeyword m <$> l1 = hasKeyword m <$> l2 →
  categoryLoop m l1 i = categoryLoop m l2 i.
Proof.
  revert l2 i. induction l1 as [|c l1 IH]; intros [|d l2] i H; try discriminate H.
  - reflexivity.
  - simpl in *. injection H as Hc H. rewrite Hc. now rewrite (IH l2).
Qed.

(** Pushing a transaction changes no keyword, so it moves no later item. *)
Lemma targetIndex_alter (tx : Transaction) (j : nat) (cats : list MessageCategory.t)
    (m : string) :
  targetIndex (alter (pushTransaction tx) j cats) m = targetIndex cats m.
Proof.
  unfold targetIndex. rewrite length_alter.
  rewrite (categoryLoop_ext m _ (take (length cats - 1) cats)); [reflexivity|].
  rewrite !fmap_take. f_equal.
  rewrite (list_fmap_alter _ (pushTransaction tx) (fun b => b));
    [now rewrite list_alter_id|].
  now apply Forall_true.
Qed.

Lemma withBucket_nil (c : MessageCategory.t) : withBucket [] c = c.
Proof. destruct c. unfold withBucket. simpl. now rewrite app_nil_r. Qed.

Lemma hasMessage_Some (tx : Transaction) :
  hasMessage tx = true → ∃ m, message tx = Some m.
Proof.
  unfold hasMessage. destruct (message tx) as [m|]; [eauto | discriminate].
Qed.

(** One round of the [forEach]: with a message and a table that is not
    empty nothing throws, and one bucket grows by the item. *)
Lemma categorizeOne_Some (cats : list MessageCategory.t) (tx : Transaction)
    (m : string) :
  cats ≠ [] → message tx = Some m →
  categorizeOne cats tx
  = Some (alter (pushTransaction tx) (targetIndex cats (Js.toLowerCase m)) cats).
Proof.
  intros Hne Hm. unfold categorizeOne. rewrite Hm. cbn [mbind option_bind].
  destruct (lookup_lt_is_Some_2 cats (targetIndex cats (Js.toLowerCase m)))
    as [c0 Hc0]; [now apply targetIndex_bound|].
  now rewrite Hc0.
Qed.

(** What the [forEach] leaves in the array: every category has received,
    in order, the items whose index it is. *)
Lemma reduceM_categorizeOne (l : list Transaction) (cats : list MessageCategory.t) :
  cats ≠ [] →
  (∀ tx, tx ∈ l → hasMessage tx = true) →
  reduceM categorizeOne l cats
  = Some (imap (fun i c => withBucket (indexBucket cats i l) c) cats).
Proof.
  revert cats. induction l as [|x l IH]; intros cats Hne Hl.
  - simpl. f_equal. apply list_eq. intros i. rewrite list_lookup_imap.
    destruct (cats !! i) as [c|]; [|reflexivity].
    simpl. f_equal. symmetry. apply withBucket_nil.
  - destruct (hasMessage_Some x) as [m Hm]; [apply Hl; constructor|].
    cbn [reduceM]. rewrite (categorizeOne_Some cats x m) by assumption.
    cbn [mbind option_bind].
    set (i0 := targetIndex cats (Js.toLowerCase m)).
    rewrite IH.
    + f_equal. apply list_eq. intros i.
      rewrite !list_lookup_imap, list_lookup_alter.
      assert (Hb : indexBucket (alter (pushTransaction x) i0 cats) i l
                   = indexBucket cats i l).
      { unfold indexBucket. apply filter_ext. intros tx.
        now rewrite targetIndex_alter. }
      rewrite Hb. unfold indexBucket at 2. cbn [List.filter].
      rewrite Hm. cbn [Js.orEmpty]. fold i0. fold (indexBucket cats i l).
      destruct (decide (i0 = i)) as [->|Hi].
      * rewrite Nat.eqb_refl. destruct (cats !! i) as [c|]; [|reflexivity].
        simpl. f_equal. unfold withBucket, pushTransaction. simpl.
        now rewrite <- app_assoc.
      * apply Nat.eqb_neq in Hi. now rewrite Hi.
    + intros H. apply (f_equal length) in H. rewrite length_alter in H.
      destruct cats; [congruence | discriminate H].
    + intros tx Htx. apply Hl. now constructor.
Qed.

Lemma messageCategories_names_NoDup :
  NoDup (MessageCategory.category <$> messageCategories).
Proof. apply (bool_decide_unpack _). vm_compute. exact I. Qed.

Lemma messageCategories_start_empty (i : nat) (c : MessageCategory.t) :
  messageCategories !! i = Some c → MessageCategory.transactions c = [].
Proof.
  intros H. apply list_elem_of_lookup_2 in H.
  assert (Hall : forallb (fun c => Nat.eqb (length (MessageCategory.transactions c)) 0)
                   messageCategories = true) by reflexivity.
  rewrite forallb_forall in Hall. apply list_elem_of_In, Hall, Nat.eqb_eq in H.
  now destruct (MessageCategory.transactions c).
Qed.

(** Names and indices of the table name the same bucket. *)
Lemma topic_index (m : string) (i : nat) (c : MessageCategory.t) :
  messageCategories !! i = Some c →
  String.eqb (messageTopic m) (MessageCategory.category c)
  = Nat.eqb (targetIndex messageCategories (Js.toLowerCase m)) i.
Proof.
  intros Hc. destruct (messageTopic_lookup m) as (c' & Hc' & ->).
  destruct (Nat.eqb_spec (targetIndex messageCategories (Js.toLowerCase m)) i)
    as [E|E].
  - rewrite E, Hc in Hc'. injection Hc' as <-. apply String.eqb_refl.
  - apply String.eqb_neq. intros Hname. apply E.
    apply (NoDup_lookup _ _ _ (MessageCategory.category c)
             messageCategories_names_NoDup);
      rewrite list_lookup_fmap.
    + rewrite Hc'. simpl. now rewrite Hname.
    + now rewrite Hc.
Qed.

Lemma imap_map {A B : Type} (f : nat → A → B) (g : A → B) (l : list A) :
  (∀ i x, l !! i = Some x → f i x = g x) → imap f l = List.map g l.
Proof.
  revert f. induction l as [|x l IH]; intros f H; [reflexivity|].
  rewrite imap_cons. simpl. f_equal.
  - now apply (H 0).
  - apply IH. intros i y Hy. now apply (H (S i)).
Qed.

(** The loop and the final [filter] compute the view [topicGroups]; nothing
    throws. *)
Lemma categorizeByMessages_groups (txs : list Transaction) :
  categorizeByMessages txs = Some (topicGroups txs).
Proof.
  unfold categorizeByMessages. cbv zeta. rewrite reduceM_categorizeOne.
  - cbn [mbind option_bind]. unfold topicGroups. do 2 f_equal.
    apply imap_map. intros i c Hc. unfold withBucket.
    rewrite (messageCategories_start_empty i c Hc). cbn [app]. f_equal.
    unfold indexBucket, topicBucket. apply filter_ext. intros tx.
    symmetry. now apply topic_index.
  - discriminate.
  - intros tx Htx. apply list_elem_of_In, filter_In in Htx. tauto.
Qed.

Lemma List_filter_sublist {A : Type} (f : A → bool) (l : list A) :
  List.filter f l `sublist_of` l.
Proof.
  induction l as [|x l IH]; simpl; [constructor|].
  destruct (f x); now constructor.
Qed.

Lemma topicBucket_sublist (name : string) (txs : list Transaction) :
  topicBucket name txs `sublist_of` txs.
Proof.
  unfold topicBucket. etransitivity; apply List_filter_sublist.
Qed.

Lemma topicBucket_elem (name : string) (txs : list Transaction) (tx : Transaction) :
  tx ∈ topicBucket name txs
  ↔ tx ∈ txs ∧ hasMessage tx = true
    ∧ messageTopic (Js.orEmpty (message tx)) = name.
Proof.
  unfold topicBucket.
  rewrite !list_elem_of_In, !filter_In, String.eqb_eq. tauto.
Qed.

Lemma topicGroups_elem (txs : list Transaction) (c : MessageCategory.t) :
  c ∈ topicGroups txs
  ↔ ∃ c0, c0 ∈ messageCategories
          ∧ c = MessageCategory.mk (MessageCategory.category c0)
                  (MessageCategory.keywords c0)
                  (topicBucket (MessageCategory.category c0) txs)
                  (MessageCategory.color c0)
          ∧ topicBucket (MessageCategory.category c0) txs ≠ [].
Proof.
  unfold topicGroups. rewrite list_elem_of_In, filter_In, in_map_iff. split.
  - intros [(c0 & <- & Hc0) Hlen]. exists c0. simpl in Hlen.
    split; [now apply list_elem_of_In|]. split; [reflexivity|].
    intros E. rewrite E in Hlen. discriminate Hlen.
  - intros (c0 & Hc0 & -> & Hne). split.
    + exists c0. split; [reflexivity | now apply list_elem_of_In].
    + simpl. destruct (topicBucket _ txs); [congruence | reflexivity].
Qed.

(** C3.  [categorizeByMessages] returns, without throwing, the categories
    of the table in table order, each with the items classified to it in
    input order, the categories with no item left out: every item with a
    message sits in the bucket of its topic, the names that survive are a
    subsequence of the table's names, and every bucket is a non-empty
    subsequence of the input. *)
Theorem message_grouping (txs : list Transaction) :
  categorizeByMessages txs = Some (topicGroups txs)
  ∧ (MessageCategory.category <$> topicGroups txs)
      `sublist_of` (MessageCategory.category <$> messageCategories)
  ∧ (∀ c, c ∈ topicGroups txs →
          MessageCategory.transactions c
            = topicBucket (MessageCategory.category c) txs
          ∧ MessageCategory.transactions c ≠ []
          ∧ MessageCategory.transactions c `sublist_of` txs)
  ∧ (∀ tx, tx ∈ txs → hasMessage tx = true →
          ∃ c, c ∈ topicGroups txs
               ∧ MessageCategory.category c = messageTopic (Js.orEmpty (message tx))
               ∧ tx ∈ MessageCategory.transactions c).
Proof.
  split; [apply categorizeByMessages_groups|]. split; [|split].
  - unfold topicGroups. etransitivity.
    + apply fmap_sublist, List_filter_sublist.
    + induction messageCategories as [|c l IH]; simpl; [constructor|].
      now constructor.
  - intros c Hc. apply topicGroups_elem in Hc as (c0 & _ & -> & Hne). simpl.
    split; [reflexivity|]. split; [exact Hne | apply topicBucket_sublist].
  - intros tx Htx Hmsg.
    destruct (messageTopic_lookup (Js.orEmpty (message tx))) as (c0 & Hc0 & Hname).
    assert (Hin : tx ∈ topicBucket (MessageCategory.category c0) txs)
      by (apply topicBucket_elem; auto).
    eexists. split; [|split].
    + apply topicGroups_elem. exists c0. split; [|split; [reflexivity|]].
      * eapply list_elem_of_lookup_2, Hc0.
      * intros E. rewrite E in Hin. inversion Hin.
    + simpl. now rewrite Hname.
    + exact Hin.
Qed.

(* ===================================================================== *)
(** ** The failure-reason grouping                                        *)
(* ===================================================================== *)

Section JsObjectFacts.
Context {V : Type}.
Implicit Types (obj : @JsObject.t V) (k : string) (v : V).

Lemma get_absent obj k : k ∉ obj.*1 → JsObject.get obj k = None.
Proof.
  induction obj as [|[j w] obj IH]; simpl; [reflexivity|].
  intros H. apply not_elem_of_cons in H as [Hj H].
  destruct (String.eqb_spec j k) as [->|_]; [congruence | now apply IH].
Qed.

Lemma set_absent obj k v : k ∉ obj.*1 → JsObject.set obj k v = obj ++ [(k, v)].
Proof.
  induction obj as [|[j w] obj IH]; simpl; [reflexivity|].
  intros H. apply not_elem_of_cons in H as [Hj H].
  destruct (String.eqb_spec j k) as [->|_]; [congruence | now rewrite IH].
Qed.

Lemma tabulated_keys (f : string → V) (ks : list string) :
  (List.map (fun j => (j, f j)) ks).*1 = ks.
Proof. induction ks as [|j ks IH]; simpl; [reflexivity | f_equal; exact IH]. Qed.

Lemma get_tabulated (f : string → V) (ks : list string) k :
  k ∈ ks → JsObject.get (List.map (fun j => (j, f j)) ks) k = Some (f k).
Proof.
  induction ks as [|j ks IH]; simpl; intros H; [inversion H|].
  destruct (String.eqb_spec j k) as [->|Hj]; [reflexivity|].
  apply IH. apply elem_of_cons in H as [->|H]; [congruence | exact H].
Qed.

Lemma set_tabulated (f : string → V) (ks : list string) k v :
  NoDup ks → k ∈ ks →
  JsObject.set (List.map (fun j => (j, f j)) ks) k v
  = List.map (fun j => (j, if String.eqb j k then v else f j)) ks.
Proof.
  induction ks as [|j ks IH]; simpl; intros Hnd H; [inversion H|].
  apply NoDup_cons in Hnd as [Hj Hnd].
  destruct (String.eqb_spec j k) as [->|Hjk].
  - f_equal. apply map_ext_in. intros i Hi.
    destruct (String.eqb_spec i k) as [->|_]; [|reflexivity].
    now apply list_elem_of_In in Hi.
  - f_equal. apply IH; [exact Hnd|].
    apply elem_of_cons in H as [->|H]; [congruence | exact H].
Qed.

End JsObjectFacts.

Lemma firstSeen_elem (l : list string) (k : string) : k ∈ firstSeen l ↔ k ∈ l.
Proof.
  induction l as [|j l IH]; simpl; [reflexivity|].
  rewrite !elem_of_cons, <- IH, !list_elem_of_In, filter_In, negb_true_iff,
    String.eqb_neq.
  destruct (String.eqb_spec k j); tauto.
Qed.

Lemma firstSeen_NoDup (l : list string) : NoDup (firstSeen l).
Proof.
  induction l as [|j l IH]; simpl; constructor.
  - rewrite list_elem_of_In, filter_In, negb_true_iff, String.eqb_neq. tauto.
  - apply NoDup_ListNoDup, List.NoDup_filter. now apply NoDup_ListNoDup.
Qed.

Lemma firstSeen_snoc (l : list string) (k : string) :
  firstSeen (l ++ [k])
  = if decide (k ∈ l) then firstSeen l else firstSeen l ++ [k].
Proof.
  induction l as [|j l IH]; cbn [firstSeen app].
  - destruct (decide (k ∈ [])) as [H|_]; [inversion H | reflexivity].
  - rewrite IH. destruct (decide (k ∈ l)) as [Hk|Hk].
    + now rewrite decide_True by now constructor.
    + rewrite List.filter_app. cbn [List.filter].
      destruct (String.eqb_spec k j) as [->|Hkj]; cbn [negb].
      * rewrite decide_True by constructor. now rewrite app_nil_r.
      * rewrite decide_False; [reflexivity|].
        intros H. apply elem_of_cons in H as [H|H]; congruence.
Qed.

Lemma keyBucket_snoc (k : string) (p : list Transaction) (x : Transaction) :
  keyBucket k (p ++ [x])
  = keyBucket k p ++ (if String.eqb (errorTypeOf x) k then [x] else []).
Proof. unfold keyBucket. rewrite List.filter_app. reflexivity. Qed.

Lemma keyBucket_absent (k : string) (p : list Transaction) :
  k ∉ List.map errorTypeOf p → keyBucket k p = [].
Proof.
  induction p as [|y p IH]; simpl; [reflexivity|].
  intros H. apply not_elem_of_cons in H as [Hy H].
  destruct (String.eqb_spec (errorTypeOf y) k) as [E|_]; [congruence | now apply IH].
Qed.

(** One round of the [reduce]: the object that groups [p] becomes the one
    that groups [p] followed by [x]. *)
Lemma groupByError_step (p : list Transaction) (x : Transaction) :
  groupByError (grouped p) x = Some (grouped (p ++ [x])).
Proof.
  set (k0 := errorTypeOf x).
  set (ks := firstSeen (List.map errorTypeOf p)).
  assert (Hacc :
    match JsObject.get (grouped p) k0 with
    | None => JsObject.set (grouped p) k0 []
    | Some _ => grouped p
    end = List.map (fun k => (k, keyBucket k p))
            (firstSeen (List.map errorTypeOf (p ++ [x])))).
  { rewrite map_app. simpl. fold k0. rewrite firstSeen_snoc. fold ks.
    unfold grouped. fold ks.
    destruct (decide (k0 ∈ List.map errorTypeOf p)) as [Hin|Hout].
    - rewrite get_tabulated by now apply firstSeen_elem. reflexivity.
    - assert (Hks : k0 ∉ (List.map (fun k => (k, keyBucket k p)) ks).*1).
      { rewrite tabulated_keys. unfold ks. now rewrite firstSeen_elem. }
      rewrite get_absent, set_absent by exact Hks.
      rewrite map_app. simpl. now rewrite (keyBucket_absent k0 p). }
  unfold groupByError. cbv zeta. fold (errorTypeOf x). fold k0. rewrite Hacc.
  assert (Hk0 : k0 ∈ firstSeen (List.map errorTypeOf (p ++ [x]))).
  { rewrite firstSeen_elem, map_app. apply elem_of_app. right. constructor. }
  rewrite get_tabulated by exact Hk0. cbn [mbind option_bind].
  rewrite set_tabulated by (exact Hk0 || apply firstSeen_NoDup).
  f_equal. unfold grouped. apply map_ext. intros k.
  rewrite keyBucket_snoc. fold k0.
  destruct (String.eqb_spec k k0) as [->|Hk].
  - now rewrite String.eqb_refl.
  - destruct (String.eqb_spec k0 k) as [E|_]; [congruence|].
    now rewrite app_nil_r.
Qed.

Lemma reduceM_groupByError (l p : list Transaction) :
  reduceM groupByError l (grouped p) = Some (grouped (p ++ l)).
Proof.
  revert p. induction l as [|x l IH]; intros p; simpl.
  - now rewrite app_nil_r.
  - rewrite groupByError_step. cbn [mbind option_bind].
    rewrite IH. now rewrite <- app_assoc.
Qed.

Lemma failedByError_grouped (txs : list Transaction) :
  failedByError txs = Some (grouped (failedOf txs)).
Proof. unfold failedByError. cbv zeta. apply (reduceM_groupByError _ []). Qed.

Lemma categorizeTransactions_groups (txs : list Transaction) :
  categorizeTransactions txs = Some (statusGroups txs).
Proof.
  unfold categorizeTransactions. cbv zeta. rewrite failedByError_grouped.
  cbn [mbind option_bind]. unfold statusGroups, JsObject.entries, grouped.
  do 2 f_equal. now rewrite map_map.
Qed.

Lemma Status_eqb_eq (a b : Status) : Status_eqb a b = true ↔ a = b.
Proof. destruct a, b; simpl; split; congruence. Qed.

Lemma failedOf_elem (txs : list Transaction) (tx : Transaction) :
  tx ∈ failedOf txs ↔ tx ∈ txs ∧ status tx = failed.
Proof.
  unfold failedOf. now rewrite !list_elem_of_In, filter_In, Status_eqb_eq.
Qed.

Lemma errorBucket_elem (k : string) (txs : list Transaction) (tx : Transaction) :
  tx ∈ errorBucket k txs ↔ tx ∈ txs ∧ status tx = failed ∧ errorTypeOf tx = k.
Proof.
  unfold errorBucket, keyBucket.
  rewrite list_elem_of_In, filter_In, <- list_elem_of_In, failedOf_elem,
    String.eqb_eq.
  tauto.
Qed.

Lemma grouped_elem (l : list Transaction) (k : string) (bucket : list Transaction) :
  (k, bucket) ∈ grouped l
  ↔ k ∈ List.map errorTypeOf l ∧ bucket = keyBucket k l.
Proof.
  unfold grouped. split.
  - intros H. apply list_elem_of_In, in_map_iff in H as (j & Heq & Hj).
    injection Heq as -> <-.
    now rewrite <- list_elem_of_In, firstSeen_elem in Hj.
  - intros [Hk ->]. apply list_elem_of_In, in_map_iff.
    exists k. split; [reflexivity|].
    now rewrite <- list_elem_of_In, firstSeen_elem.
Qed.

(** C4.  Only the failed transactions are grouped by error category, each
    under the category of its error text; a category exists only once a
    failed transaction has asked for it, so the categories come out in the
    order in which they are first met in the input, which need not be the
    order [getErrorCategory] tries them in: a timeout met before a lack of
    funds is listed before it. *)
Theorem failure_grouping (txs : list Transaction) :
  failedByError txs = Some (grouped (failedOf txs))
  ∧ categorizeTransactions txs = Some (statusGroups txs)
  ∧ (grouped (failedOf txs)).*1 = firstSeen (List.map errorTypeOf (failedOf txs))
  ∧ (∀ k, k ∈ (grouped (failedOf txs)).*1
          ↔ ∃ tx, tx ∈ txs ∧ status tx = failed ∧ errorTypeOf tx = k)
  ∧ (∀ k bucket, (k, bucket) ∈ grouped (failedOf txs) →
       bucket = errorBucket k txs
       ∧ bucket `sublist_of` txs
       ∧ ∀ tx, tx ∈ bucket ↔ tx ∈ txs ∧ status tx = failed ∧ errorTypeOf tx = k)
  ∧ (TransactionCategory.title <$>
       default []
         (categorizeTransactions
            [ sampleTx "a" failed None (Some "Request timeout");
              sampleTx "b" success (Some "lunch") None;
              sampleTx "c" failed None (Some "Insufficient funds in wallet");
              sampleTx "d" failed None (Some "Timeout again") ]))
    = [ "Successful Transactions"; "Pending Transactions";
        "Failed: Timeout"; "Failed: Insufficient Funds" ].
Proof.
  split; [apply failedByError_grouped|].
  split; [apply categorizeTransactions_groups|].
  split; [apply tabulated_keys|].
  split; [|split; [|reflexivity]].
  - intros k. unfold grouped. rewrite tabulated_keys, firstSeen_elem.
    rewrite list_elem_of_In, in_map_iff. split.
    + intros (tx & <- & Htx). exists tx.
      apply list_elem_of_In, failedOf_elem in Htx. tauto.
    + intros (tx & Htx & Hs & <-). exists tx. split; [reflexivity|].
      apply list_elem_of_In, failedOf_elem. tauto.
  - intros k bucket H. apply grouped_elem in H as [_ ->].
    split; [reflexivity|]. split.
    + unfold keyBucket, failedOf. etransitivity; apply List_filter_sublist.
    + intros tx. apply errorBucket_elem.
Qed.

(** C10.  A failed transaction sits in one bucket of the status grouping
    and in no other: the one titled after its error category.  When its
    error message is missing or empty that category is "Other Errors". *)
Theorem failed_in_exactly_one_bucket (txs : list Transaction) (tx : Transaction) :
  tx ∈ txs → status tx = failed →
  ∃ cats c,
    categorizeTransactions txs = Some cats
    ∧ c ∈ cats
    ∧ TransactionCategory.title c = "Failed: " +:+ errorTypeOf tx
    ∧ tx ∈ TransactionCategory.transactions c
    ∧ (∀ c', c' ∈ cats → tx ∈ TransactionCategory.transactions c' → c' = c)
    ∧ (errorMessage tx = None ∨ errorMessage tx = Some "" →
       TransactionCategory.title c = "Failed: Other Errors").
Proof.
  intros Htx Hs.
  exists (statusGroups txs),
    (TransactionCategory.mk ("Failed: " +:+ errorTypeOf tx)
       (errorBucket (errorTypeOf tx) txs) failedColor).
  split; [apply categorizeTransactions_groups|].
  assert (Hin : tx ∈ errorBucket (errorTypeOf tx) txs)
    by (apply errorBucket_elem; auto).
  split; [|split; [reflexivity|split; [exact Hin|split]]].
  - unfold statusGroups. apply elem_of_app. right.
    apply list_elem_of_In, in_map_iff. exists (errorTypeOf tx).
    split; [reflexivity|]. apply list_elem_of_In, firstSeen_elem.
    apply list_elem_of_In, in_map. now apply list_elem_of_In, failedOf_elem.
  - intros c' Hc' Hmem. unfold statusGroups in Hc'.
    apply elem_of_app in Hc' as [Hc'|Hc'].
    + exfalso.
      apply elem_of_cons in Hc' as [->|Hc'];
        [|apply elem_of_cons in Hc' as [->|Hc']; [|inversion Hc']];
        simpl in Hmem; apply list_elem_of_In, filter_In in Hmem as [_ Hmem];
        apply Status_eqb_eq in Hmem; congruence.
    + apply list_elem_of_In, in_map_iff in Hc' as (k & <- & _).
      simpl in Hmem. apply errorBucket_elem in Hmem as (_ & _ & <-). reflexivity.
  - simpl. unfold errorTypeOf. intros [-> | ->]; reflexivity.
Qed.

(** A lone failed transaction that carries no error message. *)
Lemma failed_in_exactly_one_bucket_witness :
  ∃ cats c,
    categorizeTransactions [sampleTx "a" failed (Some "rent") None] = Some cats
    ∧ c ∈ cats
    ∧ TransactionCategory.title c
      = "Failed: " +:+ errorTypeOf (sampleTx "a" failed (Some "rent") None)
    ∧ sampleTx "a" failed (Some "rent") None ∈ TransactionCategory.transactions c
    ∧ (∀ c', c' ∈ cats →
         sampleTx "a" failed (Some "rent") None ∈ TransactionCategory.transactions c' →
         c' = c)
    ∧ (errorMessage (sampleTx "a" failed (Some "rent") None) = None
       ∨ errorMessage (sampleTx "a" failed (Some "rent") None) = Some "" →
       TransactionCategory.title c = "Failed: Other Errors").
Proof.
  apply (failed_in_exactly_one_bucket
           [sampleTx "a" failed (Some "rent") None]
           (sampleTx "a" failed (Some "rent") None)).
  - constructor.
  - reflexivity.
Defined.

(* ===================================================================== *)
(** ** Blank text and empty input in the groupings                        *)
(* ===================================================================== *)

Lemma hasMessage_blank (tx : Transaction) :
  hasMessage tx = false ↔ blankText (message tx).
Proof.
  unfold hasMessage, blankText. destruct (message tx) as [m|]; simpl.
  - destruct (String.eqb_spec m "") as [->|Hm]; simpl; [tauto|].
    rewrite negb_false_iff. apply String.eqb_eq.
  - tauto.
Qed.

Lemma blank_error_type (tx : Transaction) :
  blankText (errorMessage tx) → errorTypeOf tx = "Other Errors".
Proof.
  intros H. apply getErrorCategory_blank. now apply trim_empty.
Qed.

(** The claim that both groupings leave out an item with a blank text field
    fails for the failure grouping: a failed transaction without an error
    message is the one member of the "Other Errors" bucket. *)
Lemma blank_error_text_is_grouped :
  ¬ ((∀ txs tx cats c,
        tx ∈ txs → blankText (message tx) →
        categorizeByMessages txs = Some cats → c ∈ cats →
        tx ∉ MessageCategory.transactions c)
     ∧ (∀ txs tx obj k bucket,
          tx ∈ txs → blankText (errorMessage tx) →
          failedByError txs = Some obj → (k, bucket) ∈ obj →
          tx ∉ bucket)).
Proof.
  intros [_ H].
  apply (H [sampleTx "a" failed (Some "rent") None]
           (sampleTx "a" failed (Some "rent") None)
           [("Other Errors", [sampleTx "a" failed (Some "rent") None])]
           "Other Errors"
           [sampleTx "a" failed (Some "rent") None]);
    try reflexivity; constructor.
Qed.

(** C2, amended.  The message grouping leaves out an item whose message is
    missing or blank after trimming: it is in no bucket, the catch-all
    included.  The failure grouping does not look at the text to decide
    who takes part: a failed item whose error message is missing or blank
    is in the "Other Errors" bucket. *)
Theorem blank_message_excluded :
  (∀ txs tx, blankText (message tx) →
     ∃ cats, categorizeByMessages txs = Some cats
             ∧ ∀ c, c ∈ cats → tx ∉ MessageCategory.transactions c)
  ∧ (∀ txs tx, tx ∈ txs → status tx = failed → blankText (errorMessage tx) →
       ∃ obj bucket, failedByError txs = Some obj
                     ∧ ("Other Errors", bucket) ∈ obj
                     ∧ tx ∈ bucket).
Proof.
  split.
  - intros txs tx Hblank. exists (topicGroups txs).
    split; [apply categorizeByMessages_groups|].
    intros c Hc Hin. apply topicGroups_elem in Hc as (c0 & _ & -> & _).
    simpl in Hin. apply topicBucket_elem in Hin as (_ & Hmsg & _).
    apply hasMessage_blank in Hblank. congruence.
  - intros txs tx Htx Hs Hblank.
    exists (grouped (failedOf txs)), (errorBucket "Other Errors" txs).
    split; [apply failedByError_grouped|].
    assert (Hin : tx ∈ errorBucket "Other Errors" txs)
      by (apply errorBucket_elem; auto using blank_error_type).
    split; [|exact Hin].
    apply grouped_elem. split; [|reflexivity].
    rewrite <- (blank_error_type tx Hblank).
    apply list_elem_of_In, in_map. now apply list_elem_of_In, failedOf_elem.
Qed.

(** A success whose message is three spaces, next to a payment, and a
    failure whose error message is three spaces. *)
Lemma blank_message_excluded_witness :
  (blankText (message (sampleTx "b" success (Some "   ") None))
   ∧ ∃ cats,
       categorizeByMessages
         [sampleTx "a" success (Some "test payment") None;
          sampleTx "b" success (Some "   ") None] = Some cats
       ∧ ∀ c, c ∈ cats →
              sampleTx "b" success (Some "   ") None
                ∉ MessageCategory.transactions c)
  ∧ (blankText (errorMessage (sampleTx "c" failed None (Some "   ")))
     ∧ ∃ obj bucket,
         failedByError [sampleTx "c" failed None (Some "   ")] = Some obj
         ∧ ("Other Errors", bucket) ∈ obj
         ∧ sampleTx "c" failed None (Some "   ") ∈ bucket).
Proof.
  split; (split; [reflexivity|]).
  - apply (proj1 blank_message_excluded). reflexivity.
  - apply (proj2 blank_message_excluded); [constructor | reflexivity..].
Defined.

(** The claim that every grouping of no transactions has no category entry
    fails for the status grouping, which always lists its two fixed
    categories. *)
Lemma empty_status_grouping_has_entries :
  ¬ (categorizeByMessages [] = Some []
     ∧ categorizeTransactions [] = Some []).
Proof. intros [_ H]. discriminate H. Qed.

(** C6, amended.  With no transactions nothing throws; the message
    grouping has no entry, no error category is made, and the status
    grouping is its two fixed categories, "Successful Transactions" and
    "Pending Transactions", both without transactions. *)
Theorem empty_input_groupings :
  categorizeByMessages [] = Some []
  ∧ failedByError [] = Some []
  ∧ categorizeTransactions []
    = Some [ TransactionCategory.mk "Successful Transactions" []
               "bg-green-100 border-green-300 text-green-800";
             TransactionCategory.mk "Pending Transactions" []
               "bg-yellow-100 border-yellow-300 text-yellow-800" ].
Proof. repeat split. Qed.

(* ===================================================================== *)
(** ** The groupings lose and invent nothing                              *)
(* ===================================================================== *)

Section Buckets.
Context {A K : Type} (eqb : K → K → bool).
Hypothesis eqb_eq : ∀ a b, eqb a b = true ↔ a = b.

Lemma filter_split_perm (f : A → bool) (l : list A) :
  l ≡ₚ List.filter f l ++ List.filter (fun x => negb (f x)) l.
Proof.
  induction l as [|x l IH]; simpl; [reflexivity|].
  destruct (f x); simpl.
  - now constructor.
  - rewrite <- Permutation_middle. now constructor.
Qed.

(** Buckets taken key by key, over keys that are all different and include
    every key of the list, hold the list up to order. *)
Lemma buckets_perm (key : A → K) (ks : list K) (l : list A) :
  NoDup ks → (∀ x, x ∈ l → key x ∈ ks) →
  concat (List.map (fun k => List.filter (fun x => eqb (key x) k) l) ks) ≡ₚ l.
Proof.
  intros Hnd. revert l. induction Hnd as [|k ks Hk Hnd IH]; intros l Hl.
  - destruct l as [|x l]; [reflexivity|].
    specialize (Hl x ltac:(constructor)). inversion Hl.
  - cbn [List.map concat].
    etransitivity;
      [|symmetry; apply (filter_split_perm (fun x => eqb (key x) k))].
    apply Permutation_app; [reflexivity|].
    assert (E : List.map (fun k' => List.filter (fun x => eqb (key x) k') l) ks
                = List.map (fun k' => List.filter (fun x => eqb (key x) k')
                                  (List.filter (fun x => negb (eqb (key x) k)) l)) ks).
    { apply map_ext_in. intros k' Hk'. clear Hl IH.
      induction l as [|x l IHl]; [reflexivity|]. cbn [List.filter].
      destruct (eqb (key x) k) eqn:E; cbn [negb List.filter].
      - apply eqb_eq in E. destruct (eqb (key x) k') eqn:E'; [|exact IHl].
        apply eqb_eq in E'. apply list_elem_of_In in Hk'. congruence.
      - destruct (eqb (key x) k'); [f_equal|]; exact IHl. }
    rewrite E. apply IH.
    intros x Hx. apply list_elem_of_In, filter_In in Hx as [Hx Hne].
    apply list_elem_of_In, Hl, elem_of_cons in Hx as [E'|Hx]; [|exact Hx].
    apply negb_true_iff in Hne.
    assert (eqb (key x) k = true) by now apply eqb_eq. congruence.
Qed.

End Buckets.

Lemma concat_drop_empty {A B : Type} (g : A → list B) (l : list A) :
  concat (List.map g (List.filter (fun c => Nat.ltb 0 (length (g c))) l))
  = concat (List.map g l).
Proof.
  induction l as [|c l IH]; simpl; [reflexivity|].
  destruct (g c) as [|y ys] eqn:E; simpl.
  - exact IH.
  - rewrite E. simpl. now rewrite IH.
Qed.

Lemma errorTypeOf_member (tx : Transaction) : errorTypeOf tx ∈ errorCategories.
Proof. apply getErrorCategory_member. Qed.

Lemma failed_title_inj : Inj (=) (=) (String.append "Failed: ").
Proof. intros a b H. simpl in H. now injection H. Qed.

Lemma List_map_fmap {A B : Type} (f : A → B) (l : list A) :
  List.map f l = f <$> l.
Proof. induction l as [|x l IH]; simpl; [reflexivity | f_equal; exact IH]. Qed.

Lemma failed_entries_buckets (txs : list Transaction) (ks : list string) :
  TransactionCategory.transactions <$>
    List.map (fun k => TransactionCategory.mk ("Failed: " +:+ k)
                         (errorBucket k txs) failedColor) ks
  = List.map (fun k => errorBucket k txs) ks.
Proof. induction ks as [|k ks IH]; simpl; [reflexivity | f_equal; exact IH]. Qed.

Lemma failed_entries_titles (txs : list Transaction) (ks : list string) :
  TransactionCategory.title <$>
    List.map (fun k => TransactionCategory.mk ("Failed: " +:+ k)
                         (errorBucket k txs) failedColor) ks
  = String.append "Failed: " <$> ks.
Proof. induction ks as [|k ks IH]; simpl; [reflexivity | f_equal; exact IH]. Qed.

(** X1.  The status grouping is a partition of its input: its buckets, put end
    to end, are the transactions it was given, each exactly as often as it
    was given.  It has its two fixed categories and at most six more, one
    for each error category, under titles that are all different. *)
Theorem status_grouping_conserves (txs : list Transaction) :
  ∃ cats, categorizeTransactions txs = Some cats
    ∧ concat (TransactionCategory.transactions <$> cats) ≡ₚ txs
    ∧ 2 ≤ length cats ≤ 8
    ∧ NoDup (TransactionCategory.title <$> cats).
Proof.
  exists (statusGroups txs). split; [apply categorizeTransactions_groups|].
  set (ks := firstSeen (List.map errorTypeOf (failedOf txs))).
  assert (Hks : NoDup ks) by apply firstSeen_NoDup.
  assert (Hsub : ks ⊆ errorCategories).
  { intros k Hk. apply firstSeen_elem, list_elem_of_In, in_map_iff in Hk
      as (tx & <- & _). apply errorTypeOf_member. }
  split; [|split].
  - unfold statusGroups. fold ks.
    rewrite fmap_app, concat_app, failed_entries_buckets.
    cbn [fmap list_fmap concat TransactionCategory.transactions].
    rewrite app_nil_r.
    rewrite (buckets_perm String.eqb String.eqb_eq errorTypeOf ks (failedOf txs)).
    + etransitivity;
        [|apply (buckets_perm Status_eqb Status_eqb_eq status
                   [success; pending; failed] txs)].
      * cbn [List.map concat]. rewrite app_nil_r. unfold failedOf.
        now rewrite <- app_assoc.
      * repeat (apply NoDup_cons; split;
                  [intros H; repeat (apply elem_of_cons in H as [H|H];
                                     try discriminate H); inversion H|]).
        constructor.
      * intros x _. destruct (status x); repeat constructor.
    + exact Hks.
    + intros x Hx. apply firstSeen_elem, list_elem_of_In, in_map.
      now apply list_elem_of_In.
  - unfold statusGroups. fold ks. rewrite length_app, length_map. simpl.
    assert (length ks ≤ 6); [|lia].
    change 6 with (length errorCategories).
    apply submseteq_length, NoDup_submseteq; assumption.
  - unfold statusGroups. fold ks.
    rewrite fmap_app, failed_entries_titles. apply NoDup_app.
    split; [|split].
    + apply (bool_decide_unpack _). vm_compute. exact I.
    + intros t Ht Hf. apply list_elem_of_fmap in Hf as (k & -> & _).
      repeat (apply elem_of_cons in Ht as [Ht|Ht]; try discriminate Ht).
      inversion Ht.
    + apply (NoDup_fmap_2 _), Hks.
Qed.

Lemma topicGroups_buckets (txs : list Transaction) :
  concat (MessageCategory.transactions <$> topicGroups txs)
  = concat (List.map (fun name => topicBucket name txs)
              (MessageCategory.category <$> messageCategories)).
Proof.
  unfold topicGroups.
  pose proof (concat_drop_empty MessageCategory.transactions
                (List.map
                   (fun c => MessageCategory.mk (MessageCategory.category c)
                               (MessageCategory.keywords c)
                               (topicBucket (MessageCategory.category c) txs)
                               (MessageCategory.color c))
                   messageCategories)) as E.
  etransitivity; [exact E|]. clear E.
  apply f_equal. induction messageCategories as [|c l IH]; [reflexivity|].
  simpl. apply f_equal. exact IH.
Qed.

(** X2.  The message grouping is a partition of the transactions that carry a
    message: its buckets, put end to end, are those transactions, each
    exactly as often as it was given; a transaction without a message is
    in none, and no category is listed twice. *)
Theorem message_grouping_conserves (txs : list Transaction) :
  ∃ cats, categorizeByMessages txs = Some cats
    ∧ concat (MessageCategory.transactions <$> cats) ≡ₚ List.filter hasMessage txs
    ∧ length cats ≤ 7
    ∧ NoDup (MessageCategory.category <$> cats).
Proof.
  exists (topicGroups txs). split; [apply categorizeByMessages_groups|].
  assert (Hsub : (MessageCategory.category <$> topicGroups txs)
                   `sublist_of` (MessageCategory.category <$> messageCategories)).
  { unfold topicGroups. etransitivity.
    - apply fmap_sublist, List_filter_sublist.
    - induction messageCategories as [|c l IH]; simpl; [constructor|].
      now constructor. }
  split; [|split].
  - rewrite topicGroups_buckets. unfold topicBucket.
    apply (buckets_perm String.eqb String.eqb_eq
             (fun tx => messageTopic (Js.orEmpty (message tx)))).
    + apply messageCategories_names_NoDup.
    + intros x _. apply messageTopic_member.
  - apply sublist_length in Hsub. now rewrite !length_fmap in Hsub.
  - eapply sublist_NoDup; [apply messageCategories_names_NoDup | exact Hsub].
Qed.

(* ===================================================================== *)
(** ** Trimming and extending the text                                    *)
(* ===================================================================== *)

Lemma lowerChar_isWhiteSpace (c : ascii) :
  Js.isWhiteSpace (Js.lowerChar c) = Js.isWhiteSpace c.
Proof. destruct c as [[] [] [] [] [] [] [] []]; reflexivity. Qed.

Lemma toLowerCase_trimStart (s : string) :
  Js.toLowerCase (Js.trimStart s) = Js.trimStart (Js.toLowerCase s).
Proof.
  induction s as [|c s IH]; simpl; [reflexivity|].
  rewrite lowerChar_isWhiteSpace. now destruct (Js.isWhiteSpace c).
Qed.

Lemma toLowerCase_trimEnd (s : string) :
  Js.toLowerCase (Js.trimEnd s) = Js.trimEnd (Js.toLowerCase s).
Proof.
  induction s as [|c s IH]; simpl; [reflexivity|].
  rewrite <- IH, lowerChar_isWhiteSpace.
  destruct (Js.trimEnd s); simpl; [|reflexivity].
  now destruct (Js.isWhiteSpace c).
Qed.

Lemma toLowerCase_trim (s : string) :
  Js.toLowerCase (Js.trim s) = Js.trim (Js.toLowerCase s).
Proof. unfold Js.trim. now rewrite toLowerCase_trimEnd, toLowerCase_trimStart. Qed.

Lemma includes_trimStart (s k : string) :
  startsNonWhite k = true → Js.includes (Js.trimStart s) k = Js.includes s k.
Proof.
  destruct k as [|d k]; [discriminate|]. simpl. intros Hd.
  apply negb_true_iff in Hd.
  induction s as [|c s IH]; [reflexivity|].
  cbn [Js.trimStart]. destruct (Js.isWhiteSpace c) eqn:Hc; [|reflexivity].
  rewrite IH. cbn [Js.includes String.prefix].
  destruct (Ascii.ascii_dec d c) as [->|_]; [congruence | reflexivity].
Qed.

(** What [trimEnd] cuts off. *)
Lemma trimEnd_rest (s : string) : ∃ w, s = Js.trimEnd s +:+ w.
Proof.
  induction s as [|c s [w IH]]; [exists ""; reflexivity|]. simpl.
  destruct (Js.trimEnd s) as [|d t] eqn:E.
  - destruct (Js.isWhiteSpace c).
    + exists (String c s). reflexivity.
    + exists w. simpl. now rewrite IH at 1.
  - exists w. simpl. now rewrite IH at 1.
Qed.

Lemma trimEnd_app_nonempty (b x : string) :
  Js.trimEnd x ≠ "" → Js.trimEnd (b +:+ x) = b +:+ Js.trimEnd x.
Proof.
  intros Hx. induction b as [|c b IH]; simpl; [reflexivity|].
  rewrite IH. destruct (b +:+ Js.trimEnd x) eqn:E; [|now rewrite <- E].
  destruct b; [now destruct Hx | discriminate E].
Qed.

Lemma trimEnd_keyword (k a : string) :
  endsNonWhite k = true → Js.trimEnd (k +:+ a) = k +:+ Js.trimEnd a.
Proof.
  induction k as [|c k IH]; [discriminate|]. intros Hk.
  destruct k as [|d k].
  - change (Js.trimEnd (String c a) = String c (Js.trimEnd a)).
    simpl in *. apply negb_true_iff in Hk. rewrite Hk.
    now destruct (Js.trimEnd a).
  - change (Js.trimEnd (String c (String d k +:+ a))
            = String c (String d k +:+ Js.trimEnd a)).
    cbn [Js.trimEnd]. rewrite IH by exact Hk. reflexivity.
Qed.

Lemma string_app_assoc (a b c : string) :
  (a +:+ b) +:+ c = a +:+ (b +:+ c).
Proof.
  induction a as [|x a IH]; [reflexivity|].
  change (String x ((a +:+ b) +:+ c) = String x (a +:+ (b +:+ c))).
  now rewrite IH.
Qed.

Lemma includes_trimEnd (s k : string) :
  endsNonWhite k = true → Js.includes (Js.trimEnd s) k = Js.includes s k.
Proof.
  intros Hk. apply eq_true_iff_eq. rewrite !includes_spec. split.
  - intros (b & a & E). destruct (trimEnd_rest s) as [w Hw].
    exists b, (a +:+ w). rewrite Hw, E.
    now rewrite !string_app_assoc.
  - intros (b & a & ->). exists b, (Js.trimEnd a).
    rewrite trimEnd_app_nonempty; rewrite trimEnd_keyword by exact Hk.
    + reflexivity.
    + destruct k; [discriminate Hk | discriminate].
Qed.

(** A keyword with no white space at either end occurs in the trimmed text
    exactly when it occurs in the text. *)
Lemma includes_trim (s k : string) :
  solidKeyword k = true → Js.includes (Js.trim s) k = Js.includes s k.
Proof.
  unfold solidKeyword, Js.trim. intros H. apply andb_true_iff in H as [H1 H2].
  now rewrite includes_trimEnd, includes_trimStart.
Qed.

Lemma keywordLoop_ext (m m' : string) (kws : list string) :
  (∀ k, k ∈ kws → Js.includes m k = Js.includes m' k) →
  keywordLoop m kws = keywordLoop m' kws.
Proof.
  induction kws as [|k kws IH]; intros H; simpl; [reflexivity|].
  rewrite (H k) by constructor. rewrite IH; [reflexivity|].
  intros j Hj. apply H. now constructor.
Qed.

Lemma entryLoop_ext (m m' : string) (entries : list (string * list string)) :
  (∀ e, e ∈ entries → keywordLoop m e.2 = keywordLoop m' e.2) →
  entryLoop m entries = entryLoop m' entries.
Proof.
  induction entries as [|[name kws] entries IH]; intros H; simpl; [reflexivity|].
  pose proof (H (name, kws) ltac:(constructor)) as Hk. simpl in Hk.
  rewrite Hk, IH; [reflexivity|]. intros e He. apply H. now constructor.
Qed.

Lemma entryLoop_trim (m : string) (entries : list (string * list string)) :
  forallb (fun e : string * list string => forallb solidKeyword e.2) entries = true →
  entryLoop (Js.trim m) entries = entryLoop m entries.
Proof.
  intros H. rewrite forallb_forall in H.
  apply entryLoop_ext. intros e He. apply keywordLoop_ext. intros k Hk.
  apply includes_trim.
  apply list_elem_of_In, H in He. rewrite forallb_forall in He.
  now apply He, list_elem_of_In.
Qed.

Lemma hasKeyword_trim (m : string) (c : MessageCategory.t) :
  forallb (fun k => solidKeyword (Js.toLowerCase k)) (MessageCategory.keywords c) = true →
  hasKeyword (Js.trim m) c = hasKeyword m c.
Proof.
  intros H. rewrite forallb_forall in H. unfold hasKeyword.
  induction (MessageCategory.keywords c) as [|k kws IH]; simpl; [reflexivity|].
  rewrite includes_trim by (apply H; now left).
  rewrite IH; [reflexivity|]. intros j Hj. apply H. now right.
Qed.

Lemma categoryLoop_text_ext (m m' : string) (cs : list MessageCategory.t) (i : nat) :
  (∀ c, c ∈ cs → hasKeyword m c = hasKeyword m' c) →
  categoryLoop m cs i = categoryLoop m' cs i.
Proof.
  revert i. induction cs as [|c cs IH]; intros i H; simpl; [reflexivity|].
  rewrite (H c) by constructor. rewrite IH; [reflexivity|].
  intros d Hd. apply H. now constructor.
Qed.

Lemma fallback_trim (s : string) :
  fallbackCategorization (Js.trim s) = fallbackCategorization s.
Proof.
  unfold fallbackCategorization. cbv zeta.
  now rewrite toLowerCase_trim, entryLoop_trim by reflexivity.
Qed.

Lemma getErrorCategory_trim (s : string) :
  getErrorCategory (Js.trim s) = getErrorCategory s.
Proof.
  rewrite !getErrorCategory_rules.
  now rewrite toLowerCase_trim, entryLoop_trim by reflexivity.
Qed.

Lemma messageTopic_trim (s : string) :
  messageTopic (Js.trim s) = messageTopic s.
Proof.
  unfold messageTopic, targetIndex. rewrite toLowerCase_trim.
  rewrite (categoryLoop_text_ext (Js.trim (Js.toLowerCase s)) (Js.toLowerCase s));
    [reflexivity|].
  assert (H : forallb (fun c => forallb (fun k => solidKeyword (Js.toLowerCase k))
                                  (MessageCategory.keywords c))
                (take (length messageCategories - 1) messageCategories) = true)
    by reflexivity.
  rewrite forallb_forall in H. intros c Hc.
  now apply hasKeyword_trim, H, list_elem_of_In.
Qed.

(** X3.  Trimming the text first, as the send form does before it asks for a
    suggestion, never changes the category: no keyword of any table begins
    or ends with white space. *)
Theorem trim_keeps_category (s : string) :
  fallbackCategorization (Js.trim s) = fallbackCategorization s
  ∧ getErrorCategory (Js.trim s) = getErrorCategory s
  ∧ messageTopic (Js.trim s) = messageTopic s.
Proof.
  split; [apply fallback_trim|].
  split; [apply getErrorCategory_trim | apply messageTopic_trim].
Qed.

Lemma includes_extend (a t b k : string) :
  Js.includes t k = true → Js.includes (a +:+ t +:+ b) k = true.
Proof.
  rewrite !includes_spec. intros (p & q & ->). exists (a +:+ p), (q +:+ b).
  now rewrite !string_app_assoc.
Qed.

Lemma includes_lower_extend (a t b k : string) :
  Js.includes (Js.toLowerCase t) k = true →
  Js.includes (Js.toLowerCase (a +:+ t +:+ b)) k = true.
Proof. rewrite !toLowerCase_app. apply includes_extend. Qed.

Lemma keywordLoop_mono (m m' : string) (kws : list string) :
  (∀ k, Js.includes m k = true → Js.includes m' k = true) →
  keywordLoop m kws = true → keywordLoop m' kws = true.
Proof.
  intros H. rewrite !keywordLoop_existsb, !existsb_elem_of.
  intros (k & Hk & Hm). exists k. auto.
Qed.

Lemma entryLoop_extend (m m' : string) (entries : list (string * list string)) :
  (∀ k, Js.includes m k = true → Js.includes m' k = true) →
  entryLoop m' entries = None → entryLoop m entries = None.
Proof.
  intros H. induction entries as [|[name kws] entries IH]; simpl; [reflexivity|].
  destruct (keywordLoop m' kws) eqn:E'; [discriminate|].
  destruct (keywordLoop m kws) eqn:E; [|exact IH].
  apply (keywordLoop_mono m m' kws H) in E. congruence.
Qed.

Lemma hasKeyword_mono (m m' : string) (c : MessageCategory.t) :
  (∀ k, Js.includes m k = true → Js.includes m' k = true) →
  hasKeyword m c = true → hasKeyword m' c = true.
Proof.
  intros H. unfold hasKeyword. rewrite !existsb_elem_of.
  intros (k & Hk & Hm). exists k. auto.
Qed.

Lemma categoryLoop_from (m : string) (cs : list MessageCategory.t) (i j : nat) :
  categoryLoop m cs i = Some j → i ≤ j.
Proof.
  revert i. induction cs as [|c cs IH]; intros i; simpl; [discriminate|].
  destruct (hasKeyword m c).
  - intros [= <-]. lia.
  - intros H. apply IH in H. lia.
Qed.

Lemma categoryLoop_mono (m m' : string) (cs : list MessageCategory.t) (i j : nat) :
  (∀ k, Js.includes m k = true → Js.includes m' k = true) →
  categoryLoop m cs i = Some j →
  ∃ j', categoryLoop m' cs i = Some j' ∧ j' ≤ j.
Proof.
  intros H. revert i. induction cs as [|c cs IH]; intros i; simpl; [discriminate|].
  destruct (hasKeyword m c) eqn:E.
  - intros [= <-]. rewrite (hasKeyword_mono m m' c H E). eauto.
  - intros Hj. destruct (hasKeyword m' c).
    + exists i. split; [reflexivity|]. apply categoryLoop_from in Hj. lia.
    + now apply IH.
Qed.

Lemma targetIndex_mono (m m' : string) (cats : list MessageCategory.t) :
  (∀ k, Js.includes m k = true → Js.includes m' k = true) →
  targetIndex cats m' ≤ targetIndex cats m.
Proof.
  intros H. unfold targetIndex.
  destruct (categoryLoop m _ 0) as [j|] eqn:E.
  - destruct (categoryLoop_mono m m' _ 0 j H E) as (j' & -> & Hle). exact Hle.
  - destruct (categoryLoop m' _ 0) as [j'|] eqn:E'; [|lia].
    apply categoryLoop_bound in E'. rewrite length_take in E'. lia.
Qed.

Lemma fallback_other_iff (s : string) :
  fallbackCategorization s = "Other"
  ↔ entryLoop (Js.toLowerCase s) categoryKeywords = None.
Proof.
  unfold fallbackCategorization. cbv zeta.
  destruct (entryLoop _ _) as [name|] eqn:E; [|tauto].
  split; [|discriminate]. intros ->. apply entryLoop_name in E.
  exfalso. revert E. apply (bool_decide_unpack _). vm_compute. exact I.
Qed.

Lemma getErrorCategory_other_iff (s : string) :
  getErrorCategory s = "Other Errors"
  ↔ entryLoop (Js.toLowerCase s) errorRules = None.
Proof.
  rewrite getErrorCategory_rules.
  destruct (entryLoop _ _) as [name|] eqn:E; [|tauto].
  split; [|discriminate]. intros ->. apply entryLoop_name in E.
  exfalso. revert E. apply (bool_decide_unpack _). vm_compute. exact I.
Qed.

(** X4.  Text added before or after a message never sends it to a later
    category of the message table: a payment stays a payment whatever
    surrounds it, and a text that ends in a catch-all category ("Other
    Messages", "Other", "Other Errors") has no part that would have been
    given a named category on its own. *)
Theorem more_text_never_later (a t b : string) :
  targetIndex messageCategories (Js.toLowerCase (a +:+ t +:+ b))
    ≤ targetIndex messageCategories (Js.toLowerCase t)
  ∧ (messageTopic t = "Payments & Purchases" →
     messageTopic (a +:+ t +:+ b) = "Payments & Purchases")
  ∧ (messageTopic (a +:+ t +:+ b) = "Other Messages" →
     messageTopic t = "Other Messages")
  ∧ (fallbackCategorization (a +:+ t +:+ b) = "Other" →
     fallbackCategorization t = "Other")
  ∧ (getErrorCategory (a +:+ t +:+ b) = "Other Errors" →
     getErrorCategory t = "Other Errors").
Proof.
  assert (Hinc : ∀ k, Js.includes (Js.toLowerCase t) k = true →
                      Js.includes (Js.toLowerCase (a +:+ t +:+ b)) k = true)
    by (intros k; apply includes_lower_extend).
  pose proof (targetIndex_mono _ _ messageCategories Hinc) as Hle.
  pose proof (targetIndex_bound (Js.toLowerCase t) messageCategories
                ltac:(discriminate)) as Hb.
  assert (H0 : ∀ m, messageTopic m = "Payments & Purchases"
                    ↔ targetIndex messageCategories (Js.toLowerCase m) = 0).
  { intros m. rewrite <- Nat.eqb_eq, <- String.eqb_eq.
    now rewrite <- (topic_index m 0 _ eq_refl). }
  assert (H6 : ∀ m, messageTopic m = "Other Messages"
                    ↔ targetIndex messageCategories (Js.toLowerCase m) = 6).
  { intros m. rewrite <- Nat.eqb_eq, <- String.eqb_eq.
    now rewrite <- (topic_index m 6 _ eq_refl). }
  split; [exact Hle|]. split; [|split; [|split]].
  - rewrite !H0. lia.
  - rewrite !H6. change (length messageCategories) with 7 in Hb. lia.
  - rewrite !fallback_other_iff. now apply entryLoop_extend.
  - rewrite !getErrorCategory_other_iff. now apply entryLoop_extend.
Qed.

(** "pay" is a payment, and so is anything written around it; "hello"
    stays without a topic when cut down to "ell". *)
Lemma more_text_never_later_witness :
  (messageTopic "pay" = "Payments & Purchases"
   ∧ messageTopic ("test " +:+ "pay" +:+ "roll") = "Payments & Purchases")
  ∧ (messageTopic ("h" +:+ "ell" +:+ "o") = "Other Messages"
     ∧ messageTopic "ell" = "Other Messages").
Proof.
  split; (split; [reflexivity|]).
  - apply (proj1 (proj2 (more_text_never_later "test " "pay" "roll"))).
    reflexivity.
  - apply (proj1 (proj2 (proj2 (more_text_never_later "h" "ell" "o")))).
    reflexivity.
Defined.

(* ===================================================================== *)
(** ** What the dashboard is given                                        *)
(* ===================================================================== *)

Lemma blockchainTxs_errorType (fetched : list ParsedTransaction.t) (tx : Transaction) :
  tx ∈ blockchainTxs fetched → errorTypeOf tx = "Other Errors".
Proof.
  intros H. apply list_elem_of_In, in_map_iff in H as (p & <- & _). reflexivity.
Qed.

Lemma filter_all {A : Type} (f : A → bool) (l : list A) :
  (∀ x, x ∈ l → f x = true) → List.filter f l = l.
Proof.
  induction l as [|x l IH]; intros H; simpl; [reflexivity|].
  rewrite (H x) by constructor. f_equal. apply IH.
  intros y Hy. apply H. now constructor.
Qed.

Lemma filter_none {A : Type} (f : A → bool) (l : list A) :
  (∀ x, x ∈ l → f x = false) → List.filter f l = [].
Proof.
  induction l as [|x l IH]; intros H; simpl; [reflexivity|].
  rewrite (H x) by constructor. apply IH.
  intros y Hy. apply H. now constructor.
Qed.

(** X5.  The transactions the dashboard loads never carry an error message, so
    the status view made from them has at most three categories: the two
    fixed ones and, when some transaction failed, "Failed: Other Errors"
    with every failed transaction in it; no other error category can
    show.  When every loaded transaction is a success, as with the mock
    data, all of them are in the first category and there is no third. *)
Theorem dashboard_failures_are_other (fetched : list ParsedTransaction.t) :
  ∃ cats, categorizeTransactions (blockchainTxs fetched) = Some cats
    ∧ length cats ≤ 3
    ∧ (∀ c, c ∈ cats →
         TransactionCategory.title c
           ∈ ["Successful Transactions"; "Pending Transactions";
              "Failed: Other Errors"])
    ∧ (∀ c, c ∈ cats → TransactionCategory.title c = "Failed: Other Errors" →
         TransactionCategory.transactions c = failedOf (blockchainTxs fetched))
    ∧ ((∀ p, p ∈ fetched → ParsedTransaction.status p = success) →
       cats = [ TransactionCategory.mk "Successful Transactions"
                  (blockchainTxs fetched)
                  "bg-green-100 border-green-300 text-green-800";
                TransactionCategory.mk "Pending Transactions" []
                  "bg-yellow-100 border-yellow-300 text-yellow-800" ]).
Proof.
  set (txs := blockchainTxs fetched).
  exists (statusGroups txs). split; [apply categorizeTransactions_groups|].
  set (ks := firstSeen (List.map errorTypeOf (failedOf txs))).
  assert (Hks : ∀ k, k ∈ ks → k = "Other Errors").
  { intros k Hk. apply firstSeen_elem, list_elem_of_In, in_map_iff in Hk
      as (tx & <- & Htx).
    apply list_elem_of_In, failedOf_elem in Htx as [Htx _].
    now apply (blockchainTxs_errorType fetched). }
  assert (Hshape : ks = [] ∨ ks = ["Other Errors"]).
  { pose proof (firstSeen_NoDup (List.map errorTypeOf (failedOf txs))) as Hnd.
    fold ks in Hnd. destruct ks as [|k [|k' ks']]; [now left | right | exfalso].
    - f_equal. apply Hks. constructor.
    - apply NoDup_cons in Hnd as [Hk _]. apply Hk.
      rewrite (Hks k) by constructor.
      rewrite <- (Hks k') by (constructor; constructor). constructor. }
  assert (Hbucket : errorBucket "Other Errors" txs = failedOf txs).
  { unfold errorBucket, keyBucket. apply filter_all. intros tx Htx.
    apply failedOf_elem in Htx as [Htx _].
    rewrite (blockchainTxs_errorType fetched tx Htx). reflexivity. }
  unfold statusGroups. fold ks.
  split; [|split; [|split]].
  - rewrite length_app, length_map. destruct Hshape as [-> | ->]; simpl; lia.
  - intros c Hc. apply elem_of_app in Hc as [Hc|Hc].
    + apply elem_of_cons in Hc as [->|Hc]; [constructor|].
      apply elem_of_cons in Hc as [->|Hc]; [constructor; constructor|].
      inversion Hc.
    + apply list_elem_of_In, in_map_iff in Hc as (k & <- & Hk).
      apply list_elem_of_In, Hks in Hk as ->. repeat constructor.
  - intros c Hc Ht. apply elem_of_app in Hc as [Hc|Hc].
    + apply elem_of_cons in Hc as [->|Hc]; [discriminate Ht|].
      apply elem_of_cons in Hc as [->|Hc]; [discriminate Ht | inversion Hc].
    + apply list_elem_of_In, in_map_iff in Hc as (k & <- & Hk).
      apply list_elem_of_In, Hks in Hk as ->. exact Hbucket.
  - intros Hall.
    assert (Hst : ∀ tx, tx ∈ txs → status tx = success).
    { intros tx Htx. apply list_elem_of_In, in_map_iff in Htx as (p & <- & Hp).
      apply Hall. now apply list_elem_of_In. }
    assert (Hf : failedOf txs = []).
    { apply filter_none. intros tx Htx. now rewrite (Hst tx Htx). }
    unfold ks. rewrite Hf. cbn [List.map firstSeen app].
    rewrite filter_all by (intros tx Htx; now rewrite (Hst tx Htx)).
    rewrite filter_none by (intros tx Htx; now rewrite (Hst tx Htx)).
    reflexivity.
Qed.

(* ===================================================================== *)
(** ** The suggested category                                             *)
(* ===================================================================== *)

(** X6.  Whatever the language model answers, and whether or not it can be
    asked, the suggestion is one of [TRANSACTION_CATEGORIES]: a reply is
    taken only when, trimmed, it is one of them, and in every other case
    the keyword fallback decides.  Since the form passes the trimmed
    message, the fallback's answer is the one for the message as typed. *)
Theorem suggestion_is_a_category (key : option string) (reply : GeminiReply)
    (message : string) :
  categorizeTransaction key reply message ∈ TRANSACTION_CATEGORIES
  ∧ (categorizeTransaction key reply (Js.trim message)
       = fallbackCategorization message
     ∨ ∃ text, reply = ReplyText text
               ∧ Js.trim text ∈ TRANSACTION_CATEGORIES
               ∧ categorizeTransaction key reply (Js.trim message) = Js.trim text).
Proof.
  pose proof (fallback_trim message) as Htrim.
  unfold categorizeTransaction.
  destruct (negb (Js.truthy key) || String.eqb (Js.orEmpty key) "undefined").
  - split; [apply fallback_member | now left].
  - destruct reply as [| |text]; try (split; [apply fallback_member | now left]).
    cbv zeta.
    destruct (existsb (String.eqb (Js.trim text)) TRANSACTION_CATEGORIES) eqn:E.
    + apply existsb_elem_of in E as (c & Hc & E). apply String.eqb_eq in E.
      rewrite E. split; [exact Hc|]. right. exists text. rewrite E. auto.
    + split; [apply fallback_member | now left].
Qed.

(* ===================================================================== *)
(** ** Which network can be queried                                       *)
(* ===================================================================== *)

(** X7.  When [isBlockfrostAvailable] says yes, [getAvailableNetwork] says
    preprod.  The other way round fails for one key only: the placeholder
    'preprod_mock', which [getAvailableNetwork] takes for a preprod key and
    [isBlockfrostAvailable] refuses; and the key the configuration falls
    back on when none is set is that placeholder, never an available one. *)
Theorem blockfrost_available_is_preprod (preprodKey mainnetKey : option string) :
  (isBlockfrostAvailable preprodKey = true →
   getAvailableNetwork preprodKey mainnetKey = Some preprod)
  ∧ (getAvailableNetwork preprodKey mainnetKey = Some preprod →
     isBlockfrostAvailable preprodKey = false ↔ preprodKey = Some "preprod_mock")
  ∧ isBlockfrostAvailable (Some (preprodApiKey preprodKey))
    = isBlockfrostAvailable preprodKey.
Proof.
  unfold isBlockfrostAvailable, getAvailableNetwork, preprodApiKey.
  destruct preprodKey as [k|]; simpl.
  - destruct (String.eqb_spec k "") as [->|Hk]; simpl.
    + split; [discriminate|]. split; [|reflexivity].
      destruct (Js.truthy mainnetKey && _); discriminate.
    + destruct (String.eqb_spec k "") as [->|_]; [congruence|]. simpl.
      destruct (String.prefix "preprod" k) eqn:P.
      * destruct (String.eqb_spec k "preprod_mock") as [->|Hm]; simpl.
        -- split; [discriminate|]. split; [tauto | reflexivity].
        -- split; [reflexivity|]. split; [|reflexivity]. intros _.
           split; [discriminate | congruence].
      * rewrite andb_false_r. split; [discriminate|]. split; [|reflexivity].
        destruct (Js.truthy mainnetKey && _); discriminate.
  - split; [discriminate|]. split; [|reflexivity].
    destruct (Js.truthy mainnetKey && _); discriminate.
Qed.

(** A real-looking preprod key, and the placeholder. *)
Lemma blockfrost_available_is_preprod_witness :
  (isBlockfrostAvailable (Some "preprodAbC123") = true
   ∧ getAvailableNetwork (Some "preprodAbC123") None = Some preprod)
  ∧ (getAvailableNetwork (Some "preprod_mock") None = Some preprod
     ∧ isBlockfrostAvailable (Some "preprod_mock") = false).
Proof.
  split; (split; [reflexivity|]).
  - apply (proj1 (blockfrost_available_is_preprod (Some "preprodAbC123") None)).
    reflexivity.
  - apply (proj1 (proj2 (blockfrost_available_is_preprod
                           (Some "preprod_mock") None)));
      reflexivity.
Defined.

(* ===================================================================== *)
(** ** The hex codec                                                      *)
(* ===================================================================== *)

Lemma pair_ind {A : Type} (P : list A → Prop) :
  P [] → (∀ a, P [a]) → (∀ a b l, P l → P (a :: b :: l)) → ∀ l, P l.
Proof.
  intros H0 H1 H2 l.
  assert (H : P l ∧ ∀ a, P (a :: l)); [|exact (proj1 H)].
  induction l as [|x l [IHl IHc]]; [auto|].
  split; [apply IHc | intros a; now apply H2].
Qed.

Lemma small_unit_enum (u : N) :
  (u < 256)%N → In u (List.map N.of_nat (seq 0 256)).
Proof.
  intros H. apply in_map_iff. exists (N.to_nat u).
  split; [apply N2Nat.id | apply in_seq; lia].
Qed.

Lemma lowerHex_enum (u : N) :
  Hex.isLowerHexDigit u = true →
  In u (List.map N.of_nat (seq 48 10 ++ seq 97 6)).
Proof.
  unfold Hex.isLowerHexDigit. intros H. apply in_map_iff. exists (N.to_nat u).
  split; [apply N2Nat.id|]. apply in_app_iff.
  apply orb_true_iff in H as [H|H]; apply andb_true_iff in H as [H1 H2];
    apply N.leb_le in H1, H2; [left | right]; apply in_seq; lia.
Qed.

(** A code unit below 256 is written as its two digits and read back. *)
Lemma hex_unit_round_trip (u : N) :
  (u < 256)%N →
  Hex.padStart2 (Hex.toString16 u) = [Hex.hexDigit (u / 16); Hex.hexDigit (u mod 16)]%N
  ∧ Hex.fromCharCode
      (Hex.parseInt16 [Hex.hexDigit (u / 16); Hex.hexDigit (u mod 16)]%N) = u.
Proof.
  intros H. apply small_unit_enum in H. revert u H.
  apply List.Forall_forall.
  apply (bool_decide_unpack _). vm_compute. exact I.
Qed.

Lemma stringToHex_cons (u : N) (s : list N) :
  Hex.isHighSurrogate u = false →
  Hex.stringToHex (u :: s) = Hex.padStart2 (Hex.toString16 u) ++ Hex.stringToHex s.
Proof.
  intros H. unfold Hex.stringToHex. cbn [Hex.arrayFrom]. rewrite H.
  destruct s; reflexivity.
Qed.

Lemma small_not_surrogate (u : N) : (u < 256)%N → Hex.isHighSurrogate u = false.
Proof.
  intros H. unfold Hex.isHighSurrogate.
  apply andb_false_iff. left. apply N.leb_gt. lia.
Qed.

Lemma hexDigit_lower (d : N) : (d < 16)%N → Hex.isLowerHexDigit (Hex.hexDigit d) = true.
Proof.
  intros H. unfold Hex.hexDigit, Hex.isLowerHexDigit.
  destruct (N.ltb_spec d 10); apply orb_true_iff; [left | right];
    apply andb_true_iff; split; apply N.leb_le; lia.
Qed.

Lemma hexDigitsOf_lower (fuel : nat) (n : N) :
  Forall (fun d => Hex.isLowerHexDigit d = true) (Hex.hexDigitsOf fuel n).
Proof.
  revert n. induction fuel as [|fuel IH]; intros n; simpl; [constructor|].
  destruct (N.ltb_spec n 16).
  - repeat constructor. now apply hexDigit_lower.
  - apply Forall_app. split; [apply IH|]. repeat constructor.
    apply hexDigit_lower. now apply N.mod_lt.
Qed.

(** [stringToHex] writes nothing but the digits 0-9 and a-f. *)
Lemma stringToHex_lower (s : list N) :
  Forall (fun d => Hex.isLowerHexDigit d = true) (Hex.stringToHex s).
Proof.
  unfold Hex.stringToHex. apply Forall_concat, List.Forall_forall.
  intros ds Hds. apply in_map_iff in Hds as (c & <- & _).
  pose proof (hexDigitsOf_lower (S (N.to_nat (N.log2 c.1))) c.1) as H.
  fold (Hex.toString16 c.1) in H.
  destruct (Hex.toString16 c.1) as [|d [|d' ds]]; cbn [Hex.padStart2];
    [repeat constructor | | exact H].
  inversion H; subst. repeat constructor. assumption.
Qed.

(** Two digits, or one, are read as a code unit below 256. *)
Lemma hexToString_pair_small (a b : N) :
  Hex.isLowerHexDigit a = true → Hex.isLowerHexDigit b = true →
  (Hex.fromCharCode (Hex.parseInt16 [a; b]) < 256)%N
  ∧ Hex.padStart2 (Hex.toString16 (Hex.fromCharCode (Hex.parseInt16 [a; b])))
    = [a; b].
Proof.
  intros Ha Hb. apply lowerHex_enum in Ha, Hb.
  assert (H : Forall (fun a => Forall (fun b =>
                (Hex.fromCharCode (Hex.parseInt16 [a; b]) < 256)%N
                ∧ Hex.padStart2
                    (Hex.toString16 (Hex.fromCharCode (Hex.parseInt16 [a; b])))
                  = [a; b])
              (List.map N.of_nat (seq 48 10 ++ seq 97 6)))
            (List.map N.of_nat (seq 48 10 ++ seq 97 6)))
    by (apply (bool_decide_unpack _); vm_compute; exact I).
  rewrite List.Forall_forall in H. specialize (H a Ha).
  rewrite List.Forall_forall in H. exact (H b Hb).
Qed.

Lemma hexToString_single_small (a : N) :
  Hex.isLowerHexDigit a = true → (Hex.fromCharCode (Hex.parseInt16 [a]) < 256)%N.
Proof.
  intros Ha. apply lowerHex_enum in Ha. revert a Ha.
  apply List.Forall_forall. apply (bool_decide_unpack _). vm_compute. exact I.
Qed.

Lemma hexToString_small (h : list N) :
  Forall (fun d => Hex.isLowerHexDigit d = true) h →
  Forall (fun u => (u < 256)%N) (Hex.hexToString h).
Proof.
  induction h as [| a | a b h IH] using pair_ind; intros H; cbn [Hex.hexToString].
  - constructor.
  - inversion H; subst. repeat constructor. now apply hexToString_single_small.
  - inversion H as [|? ? Ha H']; subst. inversion H' as [|? ? Hb H'']; subst.
    constructor; [now apply hexToString_pair_small | now apply IH].
Qed.

Lemma hex_round_trip_small (s : list N) :
  Forall (fun u => (u < 256)%N) s →
  Hex.hexToString (Hex.stringToHex s) = s
  ∧ length (Hex.stringToHex s) = 2 * length s.
Proof.
  induction 1 as [|u s Hu Hs [IH1 IH2]]; [split; reflexivity|].
  rewrite stringToHex_cons by now apply small_not_surrogate.
  destruct (hex_unit_round_trip u Hu) as [-> Hback].
  cbn [app Hex.hexToString length]. rewrite Hback, IH1, IH2. split; [reflexivity | lia].
Qed.

(** X8.  Encoding and decoding gives the string back exactly when every code
    unit of it is below 256; then the encoding is two digits for each code
    unit.  A string with any code unit above U+00FF, one accented capital
    of Latin Extended-A or one emoji, does not come back.  What is
    written is always made of the digits 0-9 and a-f. *)
Theorem hex_round_trip_iff_latin1 (s : list N) :
  (Hex.hexToString (Hex.stringToHex s) = s ↔ Forall (fun u => (u < 256)%N) s)
  ∧ (Forall (fun u => (u < 256)%N) s → length (Hex.stringToHex s) = 2 * length s)
  ∧ Forall (fun d => Hex.isLowerHexDigit d = true) (Hex.stringToHex s).
Proof.
  split; [split|split].
  - intros H. rewrite <- H. apply hexToString_small, stringToHex_lower.
  - intros H. now apply hex_round_trip_small.
  - intros H. now apply hex_round_trip_small.
  - apply stringToHex_lower.
Qed.

(** An address survives; the one code unit U+0100 does not. *)
Lemma hex_round_trip_iff_latin1_witness :
  Hex.hexToString (Hex.stringToHex (Hex.units "addr_test1qp")) = Hex.units "addr_test1qp"
  ∧ Hex.hexToString (Hex.stringToHex [256%N]) ≠ [256%N].
Proof.
  split.
  - apply (proj1 (hex_round_trip_iff_latin1 (Hex.units "addr_test1qp"))).
    apply (bool_decide_unpack _). vm_compute. exact I.
  - intros H.
    apply (proj1 (proj1 (hex_round_trip_iff_latin1 [256%N]))) in H.
    inversion H as [|? ? Hu _]; subst. vm_compute in Hu. discriminate Hu.
Defined.

(** X9.  Decoding and encoding gives the digits back when there is an even
    number of them and they are digits [stringToHex] writes: 0-9 and
    a-f. *)
Theorem hex_decode_encode (h : list N) :
  Forall (fun d => Hex.isLowerHexDigit d = true) h →
  Nat.even (length h) = true →
  Hex.stringToHex (Hex.hexToString h) = h.
Proof.
  induction h as [| a | a b h IH] using pair_ind; intros H Heven.
  - reflexivity.
  - discriminate Heven.
  - inversion H as [|? ? Ha H']; subst. inversion H' as [|? ? Hb H'']; subst.
    cbn [Hex.hexToString].
    destruct (hexToString_pair_small a b Ha Hb) as [Hsmall Hdigits].
    rewrite stringToHex_cons by now apply small_not_surrogate.
    rewrite Hdigits, IH by assumption. reflexivity.
Qed.

Lemma hex_decode_encode_witness :
  Hex.stringToHex (Hex.hexToString (Hex.units "e2f6b237")) = Hex.units "e2f6b237".
Proof.
  apply hex_decode_encode.
  - apply (bool_decide_unpack _). vm_compute. exact I.
  - reflexivity.
Defined.

(** X10.  [hexToString] takes anything: it reads the text two code units at a
    time, a last one alone when their number is odd, and answers with one
    code unit for each; a pair that does not begin like a number (no
    digit, no sign, no white space first) is read as U+0000. *)
Theorem hex_decoder_takes_anything (h : list N) :
  length (Hex.hexToString h) = Nat.div2 (S (length h))
  ∧ ∀ a b, Hex.hexValue a = None → Hex.isStrWhiteSpace a = false →
           a ≠ 43%N → a ≠ 45%N →
           Hex.hexToString (a :: b :: h) = 0%N :: Hex.hexToString h.
Proof.
  split.
  - induction h as [| a | a b h IH] using pair_ind; [reflexivity..|].
    cbn [Hex.hexToString length Nat.div2]. now rewrite IH.
  - intros a b Hv Hw Hplus Hminus. cbn [Hex.hexToString]. f_equal.
    unfold Hex.parseInt16. cbn [Hex.skipWhiteSpace]. rewrite Hw.
    assert (E : (let '(sign, s) :=
                   match a :: b :: [] with
                   | 45%N :: rest => ((-1)%Z, rest)
                   | 43%N :: rest => (1%Z, rest)
                   | _ => (1%Z, [a; b])
                   end in (sign, s)) = (1%Z, [a; b])).
    { destruct a as [|p]; [reflexivity|].
      do 7 (try destruct p as [p|p|]); try reflexivity; congruence. }
    cbv zeta in *.
    destruct (match a :: b :: [] with
              | 45%N :: rest => ((-1)%Z, rest)
              | 43%N :: rest => (1%Z, rest)
              | _ => (1%Z, [a; b])
              end) as [sign s'] eqn:Es.
    injection E as -> ->.
    assert (E2 : match a :: b :: [] with
                 | 48%N :: 120%N :: rest => rest
                 | 48%N :: 88%N :: rest => rest
                 | _ => [a; b]
                 end = [a; b]).
    { destruct a as [|p]; [reflexivity|].
      do 7 (try destruct p as [p|p|]); try reflexivity.
      vm_compute in Hv. discriminate Hv. }
    rewrite E2. cbn [Hex.digitsValue]. rewrite Hv. reflexivity.
Qed.

Lemma hex_decoder_takes_anything_witness :
  Hex.hexToString (Hex.units "zz41") = [0%N; 65%N].
Proof.
  apply (proj2 (hex_decoder_takes_anything (Hex.units "41")) 122%N 122%N);
    (reflexivity || discriminate).
Defined.

(* ===================================================================== *)
(** ** Truncation for metadata                                            *)
(* ===================================================================== *)

(** X11.  With a limit of three or more the result never has more code units
    than the limit: a string that fits is returned as it is, a longer one
    is cut to the limit less three and ends in three dots.  Truncating
    twice is truncating once. *)
Theorem truncate_fits (str : list N) (maxLength : Z) :
  (3 ≤ maxLength)%Z →
  (Z.of_nat (length (truncateForMetadata str maxLength)) ≤ maxLength)%Z
  ∧ ((Z.of_nat (length str) ≤ maxLength)%Z →
     truncateForMetadata str maxLength = str)
  ∧ ((maxLength < Z.of_nat (length str))%Z →
     truncateForMetadata str maxLength
       = take (Z.to_nat (maxLength - 3)) str ++ Hex.units "..."
     ∧ Z.of_nat (length (truncateForMetadata str maxLength)) = maxLength)
  ∧ truncateForMetadata (truncateForMetadata str maxLength) maxLength
    = truncateForMetadata str maxLength.
Proof.
  intros Hmax.
  assert (Hlong : (maxLength < Z.of_nat (length str))%Z →
            truncateForMetadata str maxLength
              = take (Z.to_nat (maxLength - 3)) str ++ Hex.units "..."
            ∧ Z.of_nat (length (truncateForMetadata str maxLength)) = maxLength).
  { intros Hl. unfold truncateForMetadata, slice0. cbv zeta.
    rewrite (proj2 (Z.leb_gt _ _)) by lia.
    rewrite (proj2 (Z.ltb_ge _ _)) by lia.
    rewrite Z.min_l by lia. split; [reflexivity|].
    rewrite length_app, length_take. simpl. lia. }
  assert (Hfit : (Z.of_nat (length str) ≤ maxLength)%Z →
            truncateForMetadata str maxLength = str).
  { intros Hl. unfold truncateForMetadata.
    now rewrite (proj2 (Z.leb_le _ _)) by lia. }
  assert (Hlen : (Z.of_nat (length (truncateForMetadata str maxLength))
                  ≤ maxLength)%Z).
  { destruct (Z.le_gt_cases (Z.of_nat (length str)) maxLength) as [Hl|Hl].
    - now rewrite Hfit.
    - destruct (Hlong Hl) as [_ ->]. lia. }
  split; [exact Hlen|]. split; [exact Hfit|]. split; [exact Hlong|].
  unfold truncateForMetadata at 1.
  now rewrite (proj2 (Z.leb_le _ _)) by exact Hlen.
Qed.

Lemma truncate_fits_witness :
  truncateForMetadata (Hex.units "addr_test1qpw0djgj0x59ngrjvqthn7enhvruxnsavsw5th63la3mjel3tkc974") 25
  = Hex.units "addr_test1qpw0djgj0x59...".
Proof.
  apply (proj1 (proj1 (proj2 (proj2
           (truncate_fits
              (Hex.units "addr_test1qpw0djgj0x59ngrjvqthn7enhvruxnsavsw5th63la3mjel3tkc974")
              25 ltac:(lia))))
           ltac:(vm_compute; reflexivity))).
Defined.

(** X12.  With a limit below three the result of cutting is longer than the
    limit: a string that does not fit comes back with at least the three
    dots. *)
Theorem truncate_small_limit (str : list N) (maxLength : Z) :
  (maxLength < 3)%Z → (maxLength < Z.of_nat (length str))%Z →
  (maxLength < Z.of_nat (length (truncateForMetadata str maxLength)))%Z
  ∧ (3 ≤ length (truncateForMetadata str maxLength)).
Proof.
  intros Hmax Hl. unfold truncateForMetadata.
  rewrite (proj2 (Z.leb_gt _ _)) by lia.
  rewrite length_app. simpl. lia.
Qed.

Lemma truncate_small_limit_witness :
  (2 < Z.of_nat (length (truncateForMetadata (Hex.units "abcdef") 2)))%Z
  ∧ 3 ≤ length (truncateForMetadata (Hex.units "abcdef") 2).
Proof.
  apply (truncate_small_limit (Hex.units "abcdef") 2); [lia | vm_compute; reflexivity].
Defined.

(* ===================================================================== *)
(** ** Bech32: the checksum                                               *)
(* ===================================================================== *)

Section Bech32Checksum.
Local Open Scope Z_scope.

Lemma wrap_small (x : Z) : -2147483648 ≤ x < 2147483648 → Int32.wrap x = x.
Proof. intros H. unfold Int32.wrap. rewrite Z.mod_small; lia. Qed.

Lemma wrap_small30 (x : Z) : small30 x → Int32.wrap x = x.
Proof. intros H. apply wrap_small. unfold small30 in H. lia. Qed.

Lemma lxor_below (n a b : Z) :
  0 ≤ n → 0 ≤ a < 2 ^ n → 0 ≤ b < 2 ^ n → 0 ≤ Z.lxor a b < 2 ^ n.
Proof.
  intros Hn Ha Hb. split; [apply Z.lxor_nonneg; lia|].
  destruct (Z.eq_dec (Z.lxor a b) 0) as [->|Hne]; [lia|].
  assert (0 < Z.lxor a b) by (pose proof (proj2 (Z.lxor_nonneg a b)); lia).
  assert (0 < n).
  { destruct (Z.eq_dec n 0) as [->|]; [|lia].
    change (2 ^ 0) with 1 in *. assert (a = 0) as -> by lia.
    assert (b = 0) as -> by lia. now destruct Hne. }
  apply Z.log2_lt_pow2; [lia|].
  eapply Z.le_lt_trans; [apply Z.log2_lxor; lia|].
  apply Z.max_lub_lt.
  - destruct (Z.eq_dec a 0) as [->|]; [simpl; lia | apply Z.log2_lt_pow2; lia].
  - destruct (Z.eq_dec b 0) as [->|]; [simpl; lia | apply Z.log2_lt_pow2; lia].
Qed.

Lemma lxor_small30 (a b : Z) : small30 a → small30 b → small30 (Z.lxor a b).
Proof. unfold small30. intros Ha Hb. apply (lxor_below 30); lia. Qed.

Lemma xor_small30 (a b : Z) :
  small30 a → small30 b → Int32.xor a b = Z.lxor a b.
Proof. intros Ha Hb. unfold Int32.xor. now rewrite !wrap_small30. Qed.

Lemma land_lxor_distr (a b c : Z) :
  Z.land (Z.lxor a b) c = Z.lxor (Z.land a c) (Z.land b c).
Proof.
  apply Z.bits_inj'. intros n Hn.
  rewrite Z.land_spec, !Z.lxor_spec, !Z.land_spec.
  now destruct (Z.testbit a n), (Z.testbit b n), (Z.testbit c n).
Qed.

(** A number is its last five bits put after the rest. *)
Lemma split5_join (y : Z) :
  Z.lxor (Z.shiftl (Z.shiftr y 5) 5) (Z.land y 31) = y.
Proof.
  apply Z.bits_inj'. intros n Hn.
  rewrite Z.lxor_spec, Z.land_spec.
  change 31 with (Z.ones 5). rewrite Z.testbit_ones_nonneg by lia.
  destruct (Z.ltb_spec n 5).
  - rewrite Z.shiftl_spec_low by lia. rewrite andb_true_r.
    now destruct (Z.testbit y n).
  - rewrite Z.shiftl_spec, Z.shiftr_spec by lia.
    replace (n - 5 + 5) with n by lia. rewrite andb_false_r.
    now destruct (Z.testbit y n).
Qed.

Lemma genRounds_lxor (top : Z) (gens : list (Z * Z)) (x e : Z) :
  Forall (fun g => small30 g.2) gens → small30 x → small30 e →
  fold_left (Bech32.genRound top) gens (Z.lxor x e)
  = Z.lxor (fold_left (Bech32.genRound top) gens x) e
  ∧ small30 (fold_left (Bech32.genRound top) gens x).
Proof.
  intros Hg. revert x. induction Hg as [|g gens Hg0 Hg IH]; intros x Hx He;
    cbn [fold_left]; [auto|].
  assert (Hc : small30 (if Int32.and (Int32.sar top g.1) 1 =? 0 then 0 else g.2))
    by (destruct (_ =? 0); [unfold small30; lia | exact Hg0]).
  unfold Bech32.genRound at 2 4 6.
  rewrite !xor_small30 by auto using lxor_small30.
  replace (Z.lxor (Z.lxor x e)
             (if Int32.and (Int32.sar top g.1) 1 =? 0 then 0 else g.2))
    with (Z.lxor (Z.lxor x
             (if Int32.and (Int32.sar top g.1) 1 =? 0 then 0 else g.2)) e).
  - apply IH; auto using lxor_small30.
  - rewrite !Z.lxor_assoc. f_equal. apply Z.lxor_comm.
Qed.

Lemma GEN_small30 :
  Forall (fun g : Z * Z => small30 g.2)
         (List.combine [0; 1; 2; 3; 4] Bech32.GEN).
Proof. repeat constructor; unfold small30; simpl; lia. Qed.

Lemma land_ones25 (x : Z) : 0 ≤ Z.land x (Z.ones 25) < 33554432.
Proof.
  rewrite Z.land_ones by lia.
  pose proof (Z.mod_pos_bound x (2 ^ 25) ltac:(lia)). lia.
Qed.

Lemma shiftl5_small30 (x : Z) : 0 ≤ x < 33554432 → small30 (Z.shiftl x 5).
Proof. intros H. rewrite Z.shiftl_mul_pow2 by lia. unfold small30. lia. Qed.

(** The state after [(chk & 0x1ffffff) << 5]. *)
Lemma base_small30 (chk : Z) :
  Int32.shl (Int32.and chk 33554431) 5
  = Z.shiftl (Z.land (Int32.wrap chk) (Z.ones 25)) 5
  ∧ small30 (Z.shiftl (Z.land (Int32.wrap chk) (Z.ones 25)) 5).
Proof.
  pose proof (land_ones25 (Int32.wrap chk)) as Hb.
  pose proof (shiftl5_small30 _ Hb) as Hs.
  split; [|exact Hs].
  unfold Int32.shl, Int32.and.
  change (Int32.wrap 33554431) with (Z.ones 25). change (5 mod 32) with 5.
  rewrite (wrap_small (Z.land _ _)) by lia.
  now apply wrap_small30.
Qed.

(** A round on state [chk] with a value of at most thirty bits is the
    round with value 0, with the value put in afterwards. *)
Lemma polymodStep_value (chk v : Z) :
  small30 v →
  Bech32.polymodStep chk v = Z.lxor (Bech32.polymodStep chk 0) v
  ∧ small30 (Bech32.polymodStep chk 0).
Proof.
  intros Hv. unfold Bech32.polymodStep. cbv zeta.
  destruct (base_small30 chk) as [-> Hb].
  assert (H0 : small30 0) by (unfold small30; lia).
  rewrite !xor_small30 by assumption. rewrite Z.lxor_0_r.
  apply genRounds_lxor; auto using GEN_small30.
Qed.

(** A difference of at most twenty-five bits between two states is moved
    up by five bits by a round, and touches nothing else. *)
Lemma polymodStep_shift (chk d v : Z) :
  small30 chk → 0 ≤ d < 33554432 → small30 v →
  Bech32.polymodStep (Z.lxor chk d) v
  = Z.lxor (Bech32.polymodStep chk 0) (Z.lxor (Z.shiftl d 5) v).
Proof.
  intros Hc Hd Hv.
  assert (Hd30 : small30 d) by (unfold small30; lia).
  assert (Hcd : small30 (Z.lxor chk d)) by now apply lxor_small30.
  unfold Bech32.polymodStep. cbv zeta.
  destruct (base_small30 chk) as [-> Hb].
  destruct (base_small30 (Z.lxor chk d)) as [-> Hb'].
  assert (H0 : small30 0) by (unfold small30; lia).
  assert (Htop : Int32.sar (Z.lxor chk d) 25 = Int32.sar chk 25).
  { unfold Int32.sar. rewrite !wrap_small30 by assumption.
    change (25 mod 32) with 25. rewrite Z.shiftr_lxor.
    rewrite (Z.shiftr_div_pow2 d) by lia.
    rewrite (Z.div_small d) by lia. apply Z.lxor_0_r. }
  rewrite Htop, !wrap_small30 by assumption.
  rewrite land_lxor_distr, Z.shiftl_lxor.
  assert (Hdm : Z.land d (Z.ones 25) = d)
    by (rewrite Z.land_ones by lia; apply Z.mod_small; lia).
  rewrite Hdm.
  assert (Hsd : small30 (Z.shiftl d 5)) by now apply shiftl5_small30.
  assert (Hbc : small30 (Z.shiftl (Z.land chk (Z.ones 25)) 5))
    by apply shiftl5_small30, land_ones25.
  rewrite (xor_small30 _ v) by auto using lxor_small30.
  rewrite (xor_small30 _ 0) by assumption.
  rewrite Z.lxor_0_r, Z.lxor_assoc.
  apply genRounds_lxor; auto using GEN_small30, lxor_small30.
Qed.

Lemma shiftr_small30 (m n : Z) : small30 m → 0 ≤ n → small30 (Z.shiftr m n).
Proof.
  unfold small30. intros Hm Hn. rewrite Z.shiftr_div_pow2 by lia.
  pose proof (Z.pow_pos_nonneg 2 n ltac:(lia) Hn).
  split; [apply Z.div_pos; lia|].
  apply Z.div_lt_upper_bound; [lia|]. nia.
Qed.

Lemma land31_small30 (y : Z) : small30 (Z.land y 31).
Proof.
  change 31 with (Z.ones 5). rewrite Z.land_ones by lia.
  pose proof (Z.mod_pos_bound y (2 ^ 5) ltac:(lia)). unfold small30. lia.
Qed.

Lemma shiftr_bound (m k : Z) :
  small30 m → 0 ≤ k ≤ 30 → 0 ≤ Z.shiftr m k < 2 ^ (30 - k).
Proof.
  unfold small30. intros Hm Hk. rewrite Z.shiftr_div_pow2 by lia.
  pose proof (Z.pow_pos_nonneg 2 k ltac:(lia) ltac:(lia)).
  split; [apply Z.div_pos; lia|].
  apply Z.div_lt_upper_bound; [lia|].
  rewrite <- Z.pow_add_r by lia. replace (k + (30 - k)) with 30 by lia.
  change (2 ^ 30) with 1073741824. lia.
Qed.

(** The [p]-th value of the checksum, without the 32-bit wrapping. *)
Lemma checksum_value (m n : Z) :
  small30 m → 0 ≤ n < 32 →
  Int32.and (Int32.sar m n) 31 = Z.land (Z.shiftr m n) 31.
Proof.
  intros Hm Hn. unfold Int32.and, Int32.sar.
  rewrite (Z.mod_small n) by lia. rewrite (wrap_small30 m) by exact Hm.
  rewrite wrap_small30 by (apply shiftr_small30; [exact Hm | lia]).
  reflexivity.
Qed.

(** From a state that differs from [z] by the bits of [m] above bit
    [n + 5], a round with the five bits of [m] above bit [n] as value leads
    to a state that differs from the next state of [z] by the bits of [m]
    above bit [n]. *)
Lemma chain_step (z m n : Z) :
  small30 z → small30 m → 5 ≤ n + 5 → Z.shiftr m (n + 5) < 33554432 →
  Bech32.polymodStep (Z.lxor z (Z.shiftr m (n + 5))) (Z.land (Z.shiftr m n) 31)
  = Z.lxor (Bech32.polymodStep z 0) (Z.shiftr m n).
Proof.
  intros Hz Hm Hn Hd.
  pose proof (shiftr_small30 m (n + 5) Hm ltac:(lia)) as Hs. unfold small30 in Hs.
  rewrite polymodStep_shift by (auto using land31_small30; lia).
  f_equal. rewrite <- (Z.shiftr_shiftr m n 5) by lia. apply split5_join.
Qed.

Lemma polymodStep_zero_small30 (chk : Z) : small30 (Bech32.polymodStep chk 0).
Proof. apply (polymodStep_value chk 0). unfold small30. lia. Qed.

(** Six rounds with the six groups of five bits of [m] as values end where
    six rounds with zeros end, but for [m] itself. *)
Lemma six_rounds (s m : Z) :
  small30 m →
  fold_left Bech32.polymodStep
    [Z.land (Z.shiftr m 25) 31; Z.land (Z.shiftr m 20) 31;
     Z.land (Z.shiftr m 15) 31; Z.land (Z.shiftr m 10) 31;
     Z.land (Z.shiftr m 5) 31; Z.land (Z.shiftr m 0) 31] s
  = Z.lxor (fold_left Bech32.polymodStep [0; 0; 0; 0; 0; 0] s) m.
Proof.
  intros Hm. cbn [fold_left].
  assert (H25 : Z.land (Z.shiftr m 25) 31 = Z.shiftr m 25).
  { change 31 with (Z.ones 5). rewrite Z.land_ones by lia.
    apply Z.mod_small. apply (shiftr_bound m 25 Hm). lia. }
  rewrite H25.
  rewrite (proj1 (polymodStep_value s (Z.shiftr m 25)
                    (shiftr_small30 m 25 Hm ltac:(lia)))).
  pose proof (shiftr_bound m 25 Hm ltac:(lia)) as B25.
  pose proof (shiftr_bound m 20 Hm ltac:(lia)) as B20.
  pose proof (shiftr_bound m 15 Hm ltac:(lia)) as B15.
  pose proof (shiftr_bound m 10 Hm ltac:(lia)) as B10.
  pose proof (shiftr_bound m 5 Hm ltac:(lia)) as B5.
  change (2 ^ (30 - 25)) with 32 in B25.
  change (2 ^ (30 - 20)) with 1024 in B20.
  change (2 ^ (30 - 15)) with 32768 in B15.
  change (2 ^ (30 - 10)) with 1048576 in B10.
  change (2 ^ (30 - 5)) with 33554432 in B5.
  rewrite (chain_step _ m 20)
    by (auto using polymodStep_zero_small30; change (20 + 5) with 25; lia).
  rewrite (chain_step _ m 15)
    by (auto using polymodStep_zero_small30; change (15 + 5) with 20; lia).
  rewrite (chain_step _ m 10)
    by (auto using polymodStep_zero_small30; change (10 + 5) with 15; lia).
  rewrite (chain_step _ m 5)
    by (auto using polymodStep_zero_small30; change (5 + 5) with 10; lia).
  rewrite (chain_step _ m 0)
    by (auto using polymodStep_zero_small30; change (0 + 5) with 5; lia).
  now rewrite Z.shiftr_0_r.
Qed.

(** X13.  The address that [bech32Encode] writes passes the bech32 check:
    whatever the prefix and the data, the checksum made for them brings
    the polymod of prefix, data and checksum to 1. *)
Theorem bech32_checksum_verifies (hrp : string) (data : list Z) :
  Bech32.bech32Polymod
    (Bech32.bech32HrpExpand hrp ++ data ++ Bech32.bech32CreateChecksum hrp data)
  = 1.
Proof.
  unfold Bech32.bech32CreateChecksum. cbv zeta. unfold Bech32.bech32Polymod.
  rewrite !app_assoc, !fold_left_app.
  set (s := fold_left Bech32.polymodStep data
              (fold_left Bech32.polymodStep (Bech32.bech32HrpExpand hrp) 1)).
  set (z := fold_left Bech32.polymodStep [0; 0; 0; 0; 0; 0] s).
  assert (Hz : small30 z) by (unfold z; cbn [fold_left]; apply polymodStep_zero_small30).
  assert (H1 : small30 1) by (unfold small30; lia).
  rewrite (xor_small30 z 1) by assumption.
  assert (Hm : small30 (Z.lxor z 1)) by now apply lxor_small30.
  cbn [List.map].
  rewrite !checksum_value by (assumption || lia).
  change (5 * (5 - 0)) with 25. change (5 * (5 - 1)) with 20.
  change (5 * (5 - 2)) with 15. change (5 * (5 - 3)) with 10.
  change (5 * (5 - 4)) with 5. change (5 * (5 - 5)) with 0.
  rewrite six_rounds by exact Hm. fold z.
  now rewrite <- Z.lxor_assoc, Z.lxor_nilpotent, Z.lxor_0_l.
Qed.

End Bech32Checksum.

(* ===================================================================== *)
(** ** Bech32: regrouping bytes into groups of five bits                  *)
(* ===================================================================== *)

Section ConvertBits.
Local Open Scope Z_scope.

Lemma lor_shift8 (a b : Z) : 0 ≤ b < 256 → Z.lor (Z.shiftl a 8) b = a * 256 + b.
Proof.
  intros Hb.
  assert (Hland : Z.land (Z.shiftl a 8) b = 0).
  { apply Z.bits_inj'. intros n Hn. rewrite Z.land_spec, Z.bits_0.
    destruct (Z.ltb_spec n 8).
    - now rewrite Z.shiftl_spec_low.
    - destruct (Z.eq_dec b 0) as [->|]; [now rewrite Z.bits_0, andb_false_r|].
      rewrite (Z.bits_above_log2 b n), andb_false_r; [reflexivity | lia |].
      apply Z.log2_lt_pow2; [lia|].
      apply Z.lt_le_trans with (2 ^ 8); [simpl; lia|].
      apply Z.pow_le_mono_r; lia. }
  rewrite <- Z.lxor_lor, <- Z.add_nocarry_lxor by exact Hland.
  now rewrite Z.shiftl_mul_pow2 by lia.
Qed.

(** [((acc << 8) | b) & 4095] *)
Lemma accumulate_8 (acc b : Z) :
  0 ≤ acc < 4096 → 0 ≤ b < 256 →
  Int32.and (Int32.or (Int32.shl acc 8) b) 4095 = (acc * 256 + b) mod 4096.
Proof.
  intros Ha Hb. unfold Int32.and, Int32.or, Int32.shl.
  change (8 mod 32) with 8. change (Int32.wrap 4095) with (Z.ones 12).
  rewrite (wrap_small acc), (wrap_small b) by lia.
  assert (Hs : Z.shiftl acc 8 = acc * 256) by now rewrite Z.shiftl_mul_pow2.
  rewrite !(wrap_small (Z.shiftl acc 8)) by (rewrite Hs; lia).
  rewrite lor_shift8 by exact Hb.
  rewrite wrap_small by lia.
  now rewrite Z.land_ones.
Qed.

(** [(acc >> k) & 31] *)
Lemma group_at (acc k : Z) :
  0 ≤ acc < 4096 → 0 ≤ k < 32 →
  Int32.and (Int32.sar acc k) 31 = (acc / 2 ^ k) mod 32.
Proof.
  intros Ha Hk. unfold Int32.and, Int32.sar.
  rewrite (Z.mod_small k) by lia. rewrite (wrap_small acc) by lia.
  rewrite Z.shiftr_div_pow2 by lia.
  pose proof (Z.pow_pos_nonneg 2 k ltac:(lia) ltac:(lia)) as Hp.
  assert (0 ≤ acc / 2 ^ k < 4096).
  { split; [apply Z.div_pos; lia|].
    apply Z.div_lt_upper_bound; [lia | nia]. }
  rewrite wrap_small by lia.
  change (Int32.wrap 31) with (Z.ones 5). now rewrite Z.land_ones.
Qed.

(** The [while] loop after a byte: one round, or two. *)
Lemma drain_8_5 (acc bits : Z) (ret : list Z) (n : nat) :
  5 ≤ bits < 13 → (2 ≤ n)%nat →
  Bech32.drain (S n) 5 31 acc bits ret
  = Some (if bits - 5 <? 5
          then (bits - 5, ret ++ [Int32.and (Int32.sar acc (bits - 5)) 31])
          else (bits - 10,
                ret ++ [Int32.and (Int32.sar acc (bits - 5)) 31;
                        Int32.and (Int32.sar acc (bits - 10)) 31])).
Proof.
  intros Hb Hn. destruct n as [|[|n]]; try lia.
  cbn [Bech32.drain]. rewrite (proj2 (Z.leb_le 5 bits)) by lia.
  destruct (Z.ltb_spec (bits - 5) 5).
  - now rewrite (proj2 (Z.leb_gt 5 (bits - 5))) by lia.
  - rewrite (proj2 (Z.leb_le 5 (bits - 5))) by lia.
    rewrite (proj2 (Z.leb_gt 5 (bits - 5 - 5))) by lia.
    rewrite <- app_assoc. now replace (bits - 5 - 5) with (bits - 10) by lia.
Qed.

(** One round of the [for] loop of [convertBits], from 8 to 5 bits, on a
    byte. *)
Lemma convertStep_8_5 (acc bits : Z) (ret : list Z) (value : option Z) :
  0 ≤ acc < 4096 → 0 ≤ bits < 5 → isByte value →
  Bech32.convertStep 8 5 31 4095 (acc, bits, ret) value
  = Some (Some (regroupStep (acc, bits, ret) (default 0 value))).
Proof.
  intros Ha Hbits Hv.
  set (b := default 0 value).
  assert (Hb : 0 ≤ b < 256) by (destruct value; simpl in *; lia).
  unfold Bech32.convertStep. fold b.
  assert (Hneg : match value with Some z => z <? 0 | None => false end = false)
    by (destruct value; simpl in *; [apply Z.ltb_ge; lia | reflexivity]).
  assert (Hsar : Int32.sar b 8 = 0).
  { unfold Int32.sar. rewrite wrap_small by lia. change (8 mod 32) with 8.
    rewrite Z.shiftr_div_pow2 by lia. apply Z.div_small. simpl. lia. }
  rewrite Hneg, Hsar. cbn [orb negb Z.eqb]. cbv zeta.
  rewrite accumulate_8 by assumption.
  pose proof (Z.mod_pos_bound (acc * 256 + b) 4096 ltac:(lia)) as Hacc.
  rewrite drain_8_5 by lia.
  unfold regroupStep. destruct (Z.ltb_spec (bits + 8 - 5) 5).
  - now rewrite group_at by lia.
  - now rewrite !group_at by lia.
Qed.

Lemma fromDigits_snoc (base : Z) (l : list Z) (d : Z) :
  Bech32.fromDigits base (l ++ [d]) = Bech32.fromDigits base l * base + d.
Proof. unfold Bech32.fromDigits. now rewrite fold_left_app. Qed.

Lemma fromDigits_snoc2 (base : Z) (l : list Z) (d1 d2 : Z) :
  Bech32.fromDigits base (l ++ [d1; d2])
  = (Bech32.fromDigits base l * base + d1) * base + d2.
Proof. unfold Bech32.fromDigits. now rewrite fold_left_app. Qed.

(** Closed comparisons, sums and powers of two in the goal, computed. *)
Ltac compute_closed :=
  repeat match goal with
    | |- context [(?a <? ?b)] =>
        let v := eval vm_compute in (a <? b) in
        progress change (a <? b) with v
    | |- context [?a + 8 - ?k] =>
        let v := eval vm_compute in (a + 8 - k) in
        progress change (a + 8 - k) with v
    | |- context [2 ^ ?k] =>
        let v := eval vm_compute in (2 ^ k) in
        progress change (2 ^ k) with v
    end.

Lemma regroupStep_keeps (bytes : list Z) (state : Z * Z * list Z) (b : Z) :
  regrouped bytes state → 0 ≤ b < 256 →
  regrouped (bytes ++ [b]) (regroupStep state b).
Proof.
  destruct state as [[acc bits] ret]. intros (Ha & Hbits & Hlen & Hval & Hret) Hb.
  unfold regroupStep, regrouped.
  pose proof (Z.mod_pos_bound (acc * 256 + b) 4096 ltac:(lia)) as Hacc.
  rewrite fromDigits_snoc, Hval, length_app. cbn [length].
  assert (Hg : ∀ k, 0 ≤ (acc * 256 + b) mod 4096 / k mod 32 < 32)
    by (intros k; apply Z.mod_pos_bound; lia).
  assert (Hcase : bits = 0 ∨ bits = 1 ∨ bits = 2 ∨ bits = 3 ∨ bits = 4) by lia.
  destruct Hcase as [-> | [-> | [-> | [-> | ->]]]];
    compute_closed; cbv iota beta zeta;
    rewrite ?fromDigits_snoc, ?fromDigits_snoc2, ?length_app; cbn [length];
    (split; [exact Hacc|]); (split; [lia|]); (split; [lia|]);
    (split; [| repeat (apply Forall_app; split); auto; repeat constructor; apply Hg]);
    compute_closed; Z.div_mod_to_equations; lia.
Qed.

(** The [for] loop of [convertBits] on bytes ends, and keeps [regrouped]. *)
Lemma convertLoop_8_5 (data : list (option Z)) :
  ∀ (done : list Z) (state : Z * Z * list Z),
    Forall isByte data → regrouped done state →
    ∃ state',
      Bech32.convertLoop 8 5 31 4095 state data = Some (Some state')
      ∧ regrouped (done ++ List.map (default 0) data) state'.
Proof.
  induction data as [|value rest IH]; intros done state Hdata Hstate.
  - exists state. split; [reflexivity|]. simpl. now rewrite app_nil_r.
  - apply Forall_cons in Hdata as [Hvalue Hrest].
    destruct state as [[acc bits] ret].
    pose proof Hstate as (Ha & Hbits & _).
    cbn [Bech32.convertLoop]. rewrite convertStep_8_5 by assumption.
    assert (Hb : 0 ≤ default 0 value < 256)
      by (destruct value; simpl in *; lia).
    destruct (IH (done ++ [default 0 value]) _ Hrest
                (regroupStep_keeps _ _ _ Hstate Hb)) as (state' & Hrun & Hkeep).
    exists state'. split; [exact Hrun|].
    cbn [List.map]. now rewrite <- app_assoc in Hkeep.
Qed.

(** The padding group: [(acc << (5 - bits)) & 31]. *)
Lemma pad_group (acc bits : Z) :
  0 ≤ acc < 4096 → 0 < bits < 5 →
  Int32.and (Int32.shl acc (5 - bits)) 31
  = (acc mod 2 ^ bits) * 2 ^ (5 - bits).
Proof.
  intros Ha Hbits. unfold Int32.and, Int32.shl.
  rewrite (Z.mod_small (5 - bits)) by lia. rewrite (wrap_small acc) by lia.
  change (Int32.wrap 31) with (Z.ones 5).
  rewrite Z.shiftl_mul_pow2 by lia.
  assert (Hcase : bits = 1 ∨ bits = 2 ∨ bits = 3 ∨ bits = 4) by lia.
  destruct Hcase as [-> | [-> | [-> | ->]]];
    repeat match goal with
      | |- context [2 ^ ?k] =>
          let v := eval vm_compute in (2 ^ k) in
          progress change (2 ^ k) with v
      end;
    rewrite !(wrap_small (acc * _)) by lia;
    rewrite Z.land_ones by lia;
    change (2 ^ 5) with 32;
    Z.div_mod_to_equations; lia.
Qed.

Lemma regroup_bytes (data : list (option Z)) :
  Forall isByte data →
  ∃ groups : list Z,
    Bech32.convertBits data 8 5 true = Bech32.Returns (Some groups)
    ∧ Forall (fun g => 0 ≤ g < 32) groups
    ∧ 0 ≤ 5 * Z.of_nat (length groups) - 8 * Z.of_nat (length data) < 5
    ∧ Bech32.fromDigits 32 groups
      = Bech32.fromDigits 256 (List.map (default 0) data)
        * 2 ^ (5 * Z.of_nat (length groups) - 8 * Z.of_nat (length data)).
Proof.
  intros Hdata.
  assert (Hstart : regrouped [] (0, 0, [])).
  { unfold regrouped. repeat split; try lia; try reflexivity. constructor. }
  destruct (convertLoop_8_5 data [] _ Hdata Hstart)
    as ([[acc bits] ret] & Hrun & Ha & Hbits & Hlen & Hval & Hret).
  cbn [app] in Hlen, Hval. rewrite length_map in Hlen.
  unfold Bech32.convertBits.
  change (Int32.shl 1 5 - 1) with 31. change (Int32.shl 1 (8 + 5 - 1) - 1) with 4095.
  rewrite Hrun. destruct (Z.ltb_spec 0 bits) as [Hpos | Hzero].
  - eexists. split; [reflexivity|].
    rewrite pad_group by lia. rewrite fromDigits_snoc, length_app. cbn [length].
    assert (Hp : 0 < 2 ^ (5 - bits)) by (apply Z.pow_pos_nonneg; lia).
    split; [|split].
    + apply Forall_app. split; [exact Hret|]. constructor; [|constructor].
      assert (Hcase : bits = 1 ∨ bits = 2 ∨ bits = 3 ∨ bits = 4) by lia.
      destruct Hcase as [-> | [-> | [-> | ->]]]; simpl;
        Z.div_mod_to_equations; lia.
    + lia.
    + replace (5 * Z.of_nat (length ret + 1) - 8 * Z.of_nat (length data))
        with (5 - bits) by lia.
      rewrite Hval.
      replace 32 with (2 ^ bits * 2 ^ (5 - bits))
        by (rewrite <- Z.pow_add_r by lia; now replace (bits + (5 - bits)) with 5 by lia).
      ring.
  - assert (bits = 0) as -> by lia.
    exists ret. split; [reflexivity|]. split; [exact Hret|]. split; [lia|].
    replace (5 * Z.of_nat (length ret) - 8 * Z.of_nat (length data)) with 0 by lia.
    rewrite Hval. simpl. rewrite Z.mod_1_r. lia.
Qed.

(** X14.  [convertBits(data, 8, 5, true)] on bytes (a [NaN] counting as 0)
    always returns an array: its entries are 5-bit groups, there are just
    enough of them to hold the bits of the bytes, and read as one number in
    base 32 they are the bytes read in base 256, with zero bits after
    them. *)
Theorem convertBits_regroups (data : list (option Z)) :
  Forall isByte data →
  ∃ groups : list Z,
    Bech32.convertBits data 8 5 true = Bech32.Returns (Some groups)
    ∧ Forall (fun g => 0 ≤ g < 32) groups
    ∧ 0 ≤ 5 * Z.of_nat (length groups) - 8 * Z.of_nat (length data) < 5
    ∧ Bech32.fromDigits 32 groups
      = Bech32.fromDigits 256 (List.map (default 0) data)
        * 2 ^ (5 * Z.of_nat (length groups) - 8 * Z.of_nat (length data)).
Proof. exact (regroup_bytes data). Qed.

Lemma convertBits_regroups_witness :
  Forall isByte [Some 255; None; Some 1]
  ∧ ∃ groups : list Z,
      Bech32.convertBits [Some 255; None; Some 1] 8 5 true
      = Bech32.Returns (Some groups)
      ∧ Forall (fun g => 0 ≤ g < 32) groups
      ∧ 0 ≤ 5 * Z.of_nat (length groups) - 8 * Z.of_nat 3 < 5
      ∧ Bech32.fromDigits 32 groups
        = Bech32.fromDigits 256 [255; 0; 1]
          * 2 ^ (5 * Z.of_nat (length groups) - 8 * Z.of_nat 3).
Proof.
  assert (H : Forall isByte [Some 255; None; Some 1])
    by (repeat constructor; simpl; lia).
  split; [exact H|]. exact (convertBits_regroups _ H).
Defined.





Lemma convertLoop_app (fromBits toBits maxv maxAcc : Z)
    (before after : list (option Z)) :
  ∀ state,
    Bech32.convertLoop fromBits toBits maxv maxAcc state (before ++ after)
    = match Bech32.convertLoop fromBits toBits maxv maxAcc state before with
      | Some (Some state') =>
          Bech32.convertLoop fromBits toBits maxv maxAcc state' after
      | r => r
      end.
Proof.
  induction before as [|value rest IH]; intros state; [reflexivity|].
  cbn [app Bech32.convertLoop].
  destruct (Bech32.convertStep _ _ _ _ state value) as [[state'|]|];
    [apply IH | reflexivity | reflexivity].
Qed.

(** X16.  [convertBits(data, 8, 5, pad)] returns [null] when, after bytes,
    it meets a number that is negative or at least 256 (and below 2^32,
    where the shift starts to wrap around). *)
Theorem convertBits_rejects (before after : list (option Z)) (z : Z)
    (pad : bool) :
  Forall isByte before → z < 0 ∨ 256 ≤ z < 4294967296 →
  Bech32.convertBits (before ++ Some z :: after) 8 5 pad = Bech32.Returns None.
Proof.
  intros Hbefore Hz.
  assert (Hstart : regrouped [] (0, 0, [])).
  { unfold regrouped. repeat split; try lia; try reflexivity. constructor. }
  destruct (convertLoop_8_5 before [] _ Hbefore Hstart)
    as ([[acc bits] ret] & Hrun & _).
  unfold Bech32.convertBits.
  change (Int32.shl 1 5 - 1) with 31. change (Int32.shl 1 (8 + 5 - 1) - 1) with 4095.
  rewrite convertLoop_app, Hrun. cbn [Bech32.convertLoop].
  assert (Hstep : Bech32.convertStep 8 5 31 4095 (acc, bits, ret) (Some z) = Some None).
  { unfold Bech32.convertStep. change (default 0 (Some z)) with z.
    destruct (Z.ltb_spec z 0) as [|Hpos]; [reflexivity|]. cbn [orb].
    assert (Hsar : Int32.sar z 8 ≠ 0).
    { unfold Int32.sar, Int32.wrap. change (8 mod 32) with 8.
      rewrite Z.shiftr_div_pow2 by lia. change (2 ^ 8) with 256.
      Z.div_mod_to_equations. lia. }
    apply Z.eqb_neq in Hsar. now rewrite Hsar. }
  now rewrite Hstep.
Qed.

Lemma convertBits_rejects_witness :
  Forall isByte [Some 48; None]
  ∧ (256 < 0 ∨ 256 ≤ 256 < 4294967296)
  ∧ Bech32.convertBits ([Some 48; None] ++ Some 256 :: [Some 1]) 8 5 true
    = Bech32.Returns None.
Proof.
  assert (H : Forall isByte [Some 48; None]) by (repeat constructor; simpl; lia).
  assert (Hz : 256 < 0 ∨ 256 ≤ 256 < 4294967296) by lia.
  split; [exact H|]. split; [exact Hz|].
  exact (convertBits_rejects _ [Some 1] 256 true H Hz).
Defined.

End ConvertBits.

(* ===================================================================== *)
(** ** [bech32Encode] and [getScriptAddress]                              *)
(* ===================================================================== *)

Section ScriptAddress.
Local Open Scope Z_scope.

Lemma encode_loop (groups : list Z) :
  ∀ ret : string,
    fold_left (fun ret d => ret +:+ Bech32.charAt d) groups ret
    = ret +:+ groupChars groups.
Proof.
  induction groups as [|d groups IH]; intros ret; cbn [fold_left groupChars fold_right].
  - induction ret as [|c ret IHret]; [reflexivity|].
    change (String c ret = String c (ret +:+ "")). now apply f_equal.
  - rewrite IH. fold (groupChars groups). now rewrite string_app_assoc.
Qed.

Lemma bech32Encode_chars (hrp : string) (data : list Z) :
  Bech32.bech32Encode hrp data
  = (hrp +:+ "1") +:+ groupChars (data ++ Bech32.bech32CreateChecksum hrp data).
Proof. unfold Bech32.bech32Encode. apply encode_loop. Qed.

Lemma charAt_group (d : Z) :
  0 ≤ d < 32 → ∃ c, Bech32.charAt d = String c "" ∧ inCharset c.
Proof.
  intros Hd. unfold Bech32.charAt. rewrite (proj2 (Z.ltb_ge d 0)) by lia.
  assert (Hn : (Z.to_nat d < 32)%nat) by lia.
  revert Hn. generalize (Z.to_nat d). intros n Hn.
  do 32 (destruct n as [|n];
         [eexists; split; [reflexivity|];
          apply (bool_decide_unpack _); vm_compute; exact I |]).
  lia.
Qed.

Lemma groupChars_shape (groups : list Z) :
  Forall (fun d => 0 ≤ d < 32) groups →
  String.length (groupChars groups) = length groups
  ∧ Forall inCharset (list_ascii_of_string (groupChars groups)).
Proof.
  induction 1 as [|d groups Hd _ [IHlen IHin]]; [split; [reflexivity | constructor]|].
  cbn [groupChars fold_right]. fold (groupChars groups).
  destruct (charAt_group d Hd) as (c & -> & Hc).
  change (String c "" +:+ groupChars groups) with (String c (groupChars groups)).
  split.
  - change (S (String.length (groupChars groups)) = S (length groups)).
    now apply f_equal.
  - change (Forall inCharset (c :: list_ascii_of_string (groupChars groups))).
    now constructor.
Qed.

Lemma and_31_range (x : Z) : 0 ≤ Int32.and x 31 < 32.
Proof.
  unfold Int32.and. change (Int32.wrap 31) with (Z.ones 5).
  rewrite Z.land_ones by lia. apply Z.mod_pos_bound. reflexivity.
Qed.

Lemma checksum_shape (hrp : string) (data : list Z) :
  length (Bech32.bech32CreateChecksum hrp data) = 6%nat
  ∧ Forall (fun d => 0 ≤ d < 32) (Bech32.bech32CreateChecksum hrp data).
Proof.
  unfold Bech32.bech32CreateChecksum. split; [reflexivity|].
  cbn [List.map]. repeat constructor; apply and_31_range.
Qed.

Lemma encode_shape (hrp : string) (data : list Z) :
  Forall (fun d => 0 ≤ d < 32) data →
  ∃ body : string,
    Bech32.bech32Encode hrp data = (hrp +:+ "1") +:+ body
    ∧ String.length body = (length data + 6)%nat
    ∧ Forall inCharset (list_ascii_of_string body).
Proof.
  intros Hdata. eexists. split; [apply bech32Encode_chars|].
  destruct (checksum_shape hrp data) as [Hlen Hsum].
  destruct (groupChars_shape (data ++ Bech32.bech32CreateChecksum hrp data))
    as [Hl Hin]; [apply Forall_app; now split|].
  split; [|exact Hin]. now rewrite Hl, length_app, Hlen.
Qed.

(** X17.  [bech32Encode] of 5-bit groups is the prefix, a [1], and one
    character of the bech32 alphabet for every group and for each of the
    six groups of the checksum. *)
Theorem bech32_encode_shape (hrp : string) (data : list Z) :
  Forall (fun d => 0 ≤ d < 32) data →
  ∃ body : string,
    Bech32.bech32Encode hrp data = (hrp +:+ "1") +:+ body
    ∧ String.length body = (length data + 6)%nat
    ∧ Forall inCharset (list_ascii_of_string body).
Proof. exact (encode_shape hrp data). Qed.

Lemma bech32_encode_shape_witness :
  Forall (fun d => 0 ≤ d < 32) [6; 0; 31]
  ∧ ∃ body : string,
      Bech32.bech32Encode "addr_test" [6; 0; 31] = ("addr_test" +:+ "1") +:+ body
      ∧ String.length body = (length [6; 0; 31] + 6)%nat
      ∧ Forall inCharset (list_ascii_of_string body).
Proof.
  assert (H : Forall (fun d => 0 ≤ d < 32) [6; 0; 31]) by (repeat constructor; lia).
  split; [exact H|]. exact (bech32_encode_shape "addr_test" _ H).
Defined.

Lemma isByteb_spec (value : option Z) : isByteb value = true → isByte value.
Proof.
  destruct value as [b|]; simpl; [|trivial].
  intros H. apply andb_true_iff in H as [H1 H2].
  apply Z.leb_le in H1. apply Z.ltb_lt in H2. lia.
Qed.

(** Two hexadecimal digits, or one, are read as a byte. *)
Lemma parse_pair_byte (a b : N) :
  Hex.isLowerHexDigit a = true → Hex.isLowerHexDigit b = true →
  isByte (Hex.parseInt16 [a; b]).
Proof.
  intros Ha Hb. apply lowerHex_enum in Ha, Hb. apply isByteb_spec.
  assert (H : Forall (fun a => Forall (fun b =>
                isByteb (Hex.parseInt16 [a; b]) = true)
              (List.map N.of_nat (seq 48 10 ++ seq 97 6)))
            (List.map N.of_nat (seq 48 10 ++ seq 97 6)))
    by (apply (bool_decide_unpack _); vm_compute; exact I).
  rewrite List.Forall_forall in H. specialize (H a Ha).
  rewrite List.Forall_forall in H. exact (H b Hb).
Qed.

Lemma parse_single_byte (a : N) :
  Hex.isLowerHexDigit a = true → isByte (Hex.parseInt16 [a]).
Proof.
  intros Ha. apply lowerHex_enum in Ha. apply isByteb_spec. revert a Ha.
  apply List.Forall_forall. apply (bool_decide_unpack _). vm_compute. exact I.
Qed.

Lemma scriptHashBytes_hex (scriptHash : list N) :
  Forall (fun u => Hex.isLowerHexDigit u = true) scriptHash →
  Forall isByte (Bech32.scriptHashBytes scriptHash)
  ∧ Z.of_nat (length (Bech32.scriptHashBytes scriptHash))
    = (Z.of_nat (length scriptHash) + 1) / 2.
Proof.
  induction scriptHash as [| a | a b h IH] using pair_ind; intros H;
    cbn [Bech32.scriptHashBytes].
  - split; [constructor | reflexivity].
  - inversion H; subst. split; [|reflexivity].
    repeat constructor. now apply parse_single_byte.
  - inversion H as [|? ? Ha H']; subst. inversion H' as [|? ? Hb Hh]; subst.
    destruct (IH Hh) as [IHbytes IHlen]. split.
    + constructor; [now apply parse_pair_byte | exact IHbytes].
    + cbn [length]. rewrite !Nat2Z.inj_succ, IHlen.
      Z.div_mod_to_equations. lia.
Qed.

Lemma convertStep_grows (acc bits : Z) (ret : list Z) (value : option Z) :
  0 ≤ bits < 5 →
  Bech32.convertStep 8 5 31 4095 (acc, bits, ret) value = Some None
  ∨ ∃ acc' bits' more,
      Bech32.convertStep 8 5 31 4095 (acc, bits, ret) value
      = Some (Some (acc', bits', ret ++ more))
      ∧ 0 ≤ bits' < 5.
Proof.
  intros Hbits. unfold Bech32.convertStep.
  destruct (_ || _); [now left|]. right. cbv zeta.
  rewrite drain_8_5 by lia.
  destruct (Z.ltb_spec (bits + 8 - 5) 5); eexists _, _, _;
    (split; [reflexivity | lia]).
Qed.

Lemma convertLoop_grows (data : list (option Z)) :
  ∀ (acc bits : Z) (ret : list Z),
    0 ≤ bits < 5 →
    Bech32.convertLoop 8 5 31 4095 (acc, bits, ret) data = Some None
    ∨ ∃ acc' bits' more,
        Bech32.convertLoop 8 5 31 4095 (acc, bits, ret) data
        = Some (Some (acc', bits', ret ++ more)).
Proof.
  induction data as [|value rest IH]; intros acc bits ret Hbits.
  - right. exists acc, bits, []. cbn [Bech32.convertLoop]. now rewrite app_nil_r.
  - cbn [Bech32.convertLoop].
    destruct (convertStep_grows acc bits ret value Hbits)
      as [-> | (acc' & bits' & more & -> & Hbits')]; [now left|].
    destruct (IH acc' bits' (ret ++ more) Hbits')
      as [-> | (acc'' & bits'' & more' & ->)]; [now left|].
    right. exists acc'', bits'', (more ++ more'). now rewrite app_assoc.
Qed.

(** The payload of an address starts with the byte 48, and its groups with
    the upper five bits of that byte. *)
Lemma address_groups (data : list (option Z)) :
  Bech32.convertBits (Some 48 :: data) 8 5 true = Bech32.Returns None
  ∨ ∃ more, Bech32.convertBits (Some 48 :: data) 8 5 true
            = Bech32.Returns (Some (6 :: more)).
Proof.
  unfold Bech32.convertBits.
  change (Int32.shl 1 5 - 1) with 31. change (Int32.shl 1 (8 + 5 - 1) - 1) with 4095.
  cbn [Bech32.convertLoop].
  change (Bech32.convertStep 8 5 31 4095 (0, 0, []) (Some 48))
    with (Some (Some (48, 3, [6]))).
  destruct (convertLoop_grows data 48 3 [6] ltac:(lia))
    as [-> | (acc & bits & more & ->)]; [now left|].
  right. destruct (0 <? bits); eexists; reflexivity.
Qed.

Lemma address_of_groups (more : list Z) :
  Bech32.bech32Encode "addr_test" (6 :: more)
  = "addr_test1x"
    +:+ groupChars (more ++ Bech32.bech32CreateChecksum "addr_test" (6 :: more)).
Proof. rewrite bech32Encode_chars. reflexivity. Qed.

(** X18.  [getScriptAddress] always answers, whatever string it is given:
    with the placeholder address, or with an address that starts with
    [addr_test1x], the [x] being the upper five bits of the header byte
    0x30. *)
Theorem script_address_shape (scriptHash : list N) :
  ∃ address : string,
    Bech32.getScriptAddress scriptHash = Some address
    ∧ (address = "addr_test1wpcrj6e8fc06tvj55vxmv25rrv8zmzyha2wsml7dsvqngu85rsf9z"
       ∨ ∃ rest, address = "addr_test1x" +:+ rest).
Proof.
  unfold Bech32.getScriptAddress.
  destruct (address_groups (Bech32.scriptHashBytes scriptHash))
    as [-> | (more & ->)].
  - eexists. split; [reflexivity|]. now left.
  - eexists. split; [reflexivity|]. right. rewrite address_of_groups. eauto.
Qed.

(** X19.  For a hash written in the digits 0-9 and a-f, [getScriptAddress]
    derives an address and never falls back to the placeholder: after
    [addr_test1x] come characters of the bech32 alphabet, one for every
    further 5-bit group of the header byte and the bytes of the hash, and
    six for the checksum. *)
Theorem script_address_of_hex (scriptHash : list N) :
  Forall (fun u => Hex.isLowerHexDigit u = true) scriptHash →
  ∃ rest : string,
    Bech32.getScriptAddress scriptHash = Some ("addr_test1x" +:+ rest)
    ∧ Forall inCharset (list_ascii_of_string rest)
    ∧ 0 ≤ 5 * (Z.of_nat (String.length rest) - 5)
          - 8 * (1 + (Z.of_nat (length scriptHash) + 1) / 2) < 5.
Proof.
  intros Hhex. destruct (scriptHashBytes_hex scriptHash Hhex) as [Hbytes Hcount].
  destruct (regroup_bytes (Some 48 :: Bech32.scriptHashBytes scriptHash))
    as (groups & Hconv & Hrange & Hlen & _).
  { constructor; [simpl; lia | exact Hbytes]. }
  unfold Bech32.getScriptAddress. rewrite Hconv.
  destruct (address_groups (Bech32.scriptHashBytes scriptHash))
    as [Hnull | (more & Hmore)]; [congruence|].
  assert (groups = 6 :: more) as -> by congruence.
  rewrite address_of_groups. eexists. split; [reflexivity|].
  apply Forall_cons in Hrange as [_ Hrange].
  destruct (checksum_shape "addr_test" (6 :: more)) as [Hsum Hsumrange].
  destruct (groupChars_shape
              (more ++ Bech32.bech32CreateChecksum "addr_test" (6 :: more)))
    as [Hl Hin]; [apply Forall_app; now split|].
  split; [exact Hin|].
  rewrite Hl, length_app, Hsum. cbn [length] in Hlen. lia.
Qed.

Lemma script_address_of_hex_witness :
  Forall (fun u => Hex.isLowerHexDigit u = true) (Hex.units ESCROW_SCRIPT_HASH)
  ∧ ∃ rest : string,
      Bech32.getScriptAddress (Hex.units ESCROW_SCRIPT_HASH)
      = Some ("addr_test1x" +:+ rest)
      ∧ Forall inCharset (list_ascii_of_string rest)
      ∧ 0 ≤ 5 * (Z.of_nat (String.length rest) - 5)
            - 8 * (1 + (Z.of_nat (length (Hex.units ESCROW_SCRIPT_HASH)) + 1) / 2) < 5.
Proof.
  assert (H : Forall (fun u => Hex.isLowerHexDigit u = true)
                (Hex.units ESCROW_SCRIPT_HASH))
    by (apply (bool_decide_unpack _); vm_compute; exact I).
  split; [exact H|]. exact (script_address_of_hex _ H).
Defined.

End ScriptAddress.
